(** * The Google provider of unifont: subset partitioning and axis resolution

    A shallow embedding of [src/providers/google.ts].

    JavaScript strings are sequences of UTF-16 code units.  Axis tags, style
    codes, weights and subset labels are ASCII, so a string is modelled as a
    Rocq [string] whose characters stand for the code units below 256
    (Latin-1); the string built-ins below are exact on that range. *)

From Stdlib Require Import String Ascii List ZArith Lia Bool Sorted Permutation.
Import ListNotations.

Local Open Scope string_scope.
Local Open Scope list_scope.
Local Open Scope Z_scope.

(** ** JavaScript built-ins used by the provider *)

(** Code units with a distinct lower-case form: A-Z, and the Latin-1 capitals
    U+00C0..U+00DE except the multiplication sign U+00D7. *)
Definition isUpperUnit (c : ascii) : bool :=
  let n := N_of_ascii c in
  ((65 <=? n) && (n <=? 90) || (192 <=? n) && (n <=? 214)
   || (216 <=? n) && (n <=? 222))%N.

(** Code units that are lower-case letters: a-z, the micro sign, and the
    Latin-1 small letters U+00DF..U+00FF except the division sign U+00F7. *)
Definition isLowerUnit (c : ascii) : bool :=
  let n := N_of_ascii c in
  ((97 <=? n) && (n <=? 122) || (n =? 181) || (223 <=? n) && (n <=? 246)
   || (248 <=? n) && (n <=? 255))%N.

Definition lowerUnit (c : ascii) : ascii :=
  if isUpperUnit c then ascii_of_N (N_of_ascii c + 32) else c.

(** [String.prototype.toLowerCase] *)
Fixpoint toLowerCase (s : string) : string :=
  match s with
  | EmptyString => EmptyString
  | String c r => String (lowerUnit c) (toLowerCase r)
  end.

(** [s.charAt(0)]: the first code unit as a string, or the empty string. *)
Definition charAt0 (s : string) : string :=
  match s with
  | EmptyString => EmptyString
  | String c _ => String c EmptyString
  end.

(** White space and line terminators below U+0100: TAB, LF, VT, FF, CR,
    SPACE and NBSP. *)
Definition isWhiteSpace (c : ascii) : bool :=
  let n := N_of_ascii c in
  ((9 <=? n) && (n <=? 13) || (n =? 32) || (n =? 160))%N.

Fixpoint trimStart (s : string) : string :=
  match s with
  | EmptyString => EmptyString
  | String c r => if isWhiteSpace c then trimStart r else s
  end.

Fixpoint trimEnd (s : string) : string :=
  match s with
  | EmptyString => EmptyString
  | String c r =>
      match trimEnd r with
      | EmptyString => if isWhiteSpace c then EmptyString else String c EmptyString
      | r' => String c r'
      end
  end.

(** [String.prototype.trim] *)
Definition trim (s : string) : string := trimEnd (trimStart s).

(** [s.replace(' ', '..')]: a string pattern replaces the first match only. *)
Fixpoint replaceSpace (s : string) : string :=
  match s with
  | EmptyString => EmptyString
  | String c r =>
      if (c =? " ")%char then String "." (String "." r)
      else String c (replaceSpace r)
  end.

(** [xs.join(sep)] *)
Definition join (sep : string) (xs : list string) : string :=
  String.concat sep xs.

(** Comparison of two strings by code units, as a comparator result. *)
Definition compareCodeUnits (a b : string) : Z :=
  match String.compare a b with
  | Lt => -1
  | Eq => 0
  | Gt => 1
  end.

(** [Array.prototype.sort(cmp)] is stable: [x] goes in front of the first
    element it does not compare greater than. *)
Fixpoint insertBy {A : Type} (cmp : A -> A -> Z) (x : A) (l : list A) : list A :=
  match l with
  | [] => [x]
  | y :: r => if cmp x y <=? 0 then x :: l else y :: insertBy cmp x r
  end.

Fixpoint sortBy {A : Type} (cmp : A -> A -> Z) (l : list A) : list A :=
  match l with
  | [] => []
  | x :: r => insertBy cmp x (sortBy cmp r)
  end.

(** [xs.sort()] on strings: ascending code-unit order. *)
Definition sortStrings (l : list string) : list string :=
  sortBy compareCodeUnits l.

(** [[...new Set(xs)]]: first occurrences, in insertion order. *)
Fixpoint uniq (l : list string) : list string :=
  match l with
  | [] => []
  | x :: r => x :: filter (fun y => negb (y =? x)%string) (uniq r)
  end.

(** [xs.at(-1)] *)
Fixpoint atLast {A : Type} (l : list A) : option A :=
  match l with
  | [] => None
  | [x] => Some x
  | _ :: r => atLast r
  end.

(** Own-property lookup in an object used as a map, keys in [Object.keys]
    order. *)
Fixpoint lookup {A : Type} (k : string) (m : list (string * A)) : option A :=
  match m with
  | [] => None
  | (k', v) :: r => if (k' =? k)%string then Some v else lookup k r
  end.

Definition keys {A : Type} (m : list (string * A)) : list string := map fst m.

(** ** Data model *)

(** What [onComment(value, loc)] receives: the comment text and [loc.end.line]. *)
Record Comment := { value : string; endLine : Z }.

(** The part of a css-tree [@font-face] node the provider reads:
    [node.loc.start.line] and the text [generate(node)] renders. *)
Record FontFaceNode := { startLine : Z; generated : string }.

(** Outcome of one [parse] call: the comments reported to [onComment], in the
    order they were reported, and the font-face at-rules [findAll] returns. *)
Record Parsed := { reported : list Comment; fontFaceNodes : list FontFaceNode }.

Record SubsetGroup := { subset : option string; css : string }.

Inductive Style := italic | oblique | normal.

Record ResolveFontOptions := {
  weights : list string;
  styles : list Style;
  subsets : list string
}.

(** An entry of a variable-axis list: a literal, or a [[lo, hi]] pair. *)
Inductive AxisEntry :=
| Literal (v : string)
| Range (lo hi : string).

(** [_options.experimental].  An absent [variableAxis] is an empty map (both
    give no key for any family); [glyphs] is [None] when the member is
    absent.  The maps are plain objects, their entries the own properties. *)
Record ProviderOption := {
  variableAxis : list (string * list (string * list AxisEntry));
  glyphs : option (list (string * list string))
}.

(** [FontIndexMeta], with the members the provider reads: the family name,
    the keys of [fonts] and the tags of [axes]. *)
Record FontIndexMeta := {
  family : string;
  fontKeys : list string;
  axisTags : list string
}.

(** An element of the list [prepareWeights] returns; an absent [variable]
    is [false]. *)
Record PreparedWeight := { weight : string; variable : bool }.

(** The request [$fetch('/css2', ...)] sends to fonts.googleapis.com. *)
Record Request := {
  userAgent : string;
  familyQuery : string;
  textQuery : option string
}.

(** [FontFaceData]: the extracted face, and [meta] with its [priority]. *)
Record FontFaceMeta := { priority : option Z }.

Record FontFaceData (Face : Type) := {
  face : Face;
  meta : option FontFaceMeta
}.
Arguments face {Face} _.
Arguments meta {Face} _.

(** A call either returns a value or throws. *)
Inductive outcome (A : Type) :=
| Returned (a : A)
| Thrown.
Arguments Returned {A} a.
Arguments Thrown {A}.

(** A value the axis loop holds in [axisValue] and [resolvedVariants]: an
    array of strings, or a member inherited from [Object.prototype], of which
    the loop reads only [length] ([None] when the member has none). *)
Inductive AxisValue :=
| Strings (values : list string)
| Inherited (arity : option Z).

(** What a resolution can observe and change: the requests sent so far, and
    the state of the storage behind [ctx.storage]. *)
Record World (Store : Type) := {
  requests : list Request;
  store : Store
}.
Arguments requests {Store} _.
Arguments store {Store} _.

(** ** Module-level constants of the provider *)

Definition styleMap (i : Style) : string :=
  match i with
  | italic => "1"
  | oblique => "1"
  | normal => "0"
  end.

(** The members every plain object inherits from [Object.prototype], each
    with its [length]: the arity of the function, and none for [__proto__],
    which yields the prototype object itself.  None of them is iterable and
    none has [flatMap] or [join]. *)
Definition objectPrototype : list (string * option Z) :=
  [ ("constructor", Some 1); ("__defineGetter__", Some 2);
    ("__defineSetter__", Some 2); ("hasOwnProperty", Some 1);
    ("__lookupGetter__", Some 1); ("__lookupSetter__", Some 1);
    ("isPrototypeOf", Some 1); ("propertyIsEnumerable", Some 1);
    ("toString", Some 0); ("valueOf", Some 0); ("__proto__", None);
    ("toLocaleString", Some 0) ].

Definition userAgents : list (string * string) :=
  [ ("woff2", "Mozilla/5.0 (Macintosh; Intel Mac OS X 10_15_7) AppleWebKit/537.36 (KHTML, like Gecko) Chrome/121.0.0.0 Safari/537.36");
    ("ttf", "Mozilla/5.0 (Windows NT 6.1) AppleWebKit/534.54.16 (KHTML, like Gecko) Version/5.1.4 Safari/534.54.16") ].

(** ** Sample documents and collaborators used in the examples *)

Definition newline : string := String (ascii_of_nat 10) EmptyString.

(** Two labelled rules, each under its own comment line. *)
Definition labelledCss : string :=
  ("/* latin */" ++ newline
   ++ "@font-face{font-family:X;src:url(a.woff2);}" ++ newline
   ++ "/* cyrillic */" ++ newline
   ++ "@font-face{font-family:X;src:url(b.woff2);}")%string.

(** A rule on line 1, before the only comment of the document. *)
Definition orphanCss : string :=
  ("@font-face{font-family:X;src:url(c.woff2);}" ++ newline
   ++ "/* latin */" ++ newline
   ++ "@font-face{font-family:X;src:url(a.woff2);}")%string.

(** A document with neither comments nor font-face rules. *)
Definition plainCss : string := "body{color:red}".

(** What the parser reports on the three documents above. *)
Definition sampleParse (input : string) : Parsed :=
  if (input =? labelledCss)%string then
    {| reported := [ {| value := " latin "; endLine := 1 |};
                     {| value := " cyrillic "; endLine := 3 |} ];
       fontFaceNodes :=
         [ {| startLine := 2; generated := "@font-face{font-family:X;src:url(a.woff2)}" |};
           {| startLine := 4; generated := "@font-face{font-family:X;src:url(b.woff2)}" |} ] |}
  else if (input =? orphanCss)%string then
    {| reported := [ {| value := " latin "; endLine := 2 |} ];
       fontFaceNodes :=
         [ {| startLine := 1; generated := "@font-face{font-family:X;src:url(c.woff2)}" |};
           {| startLine := 3; generated := "@font-face{font-family:X;src:url(a.woff2)}" |} ] |}
  else {| reported := []; fontFaceNodes := [] |}.

(** An extractor that yields one face per fragment, the fragment text. *)
Definition sampleExtract (fragment : string) : list (FontFaceData string) :=
  [ {| face := fragment; meta := None |} ].

(** A weight preparation that keeps the requested weights the family has. *)
Definition samplePrepareWeights (inputWeights : list string) (hasVariableWeights : bool)
    (available : list string) : list PreparedWeight :=
  map (fun w => {| weight := w; variable := false |})
      (filter (fun w => existsb (fun a => (a =? w)%string) available) inputWeights).

Definition sampleUpstream (r : Request) : outcome string := Returned labelledCss.

Definition sampleFonts : list FontIndexMeta :=
  [ {| family := "X"; fontKeys := ["400"; "700"]; axisTags := [] |} ].

Definition sampleProvider : ProviderOption :=
  {| variableAxis := []; glyphs := None |}.



Definition sampleWeights : list PreparedWeight :=
  [ {| weight := "400"; variable := false |}; {| weight := "700"; variable := false |} ].

Definition sampleWorld : World unit := {| requests := []; store := tt |}.


(** One comment on line 1 and two rules under it. *)
Definition headedCss : string :=
  ("/* latin */" ++ newline
   ++ "@font-face{font-family:X;src:url(a.woff2);}" ++ newline
   ++ "@font-face{font-family:X;src:url(b.woff2);}")%string.

(** The same document followed by a comment on line 4. *)
Definition trailedCss : string := (headedCss ++ newline ++ "/* end */")%string.

(** What the parser reports on these two documents; the others as
    [sampleParse] has them. *)
Definition headedParse (input : string) : Parsed :=
  let rules :=
    [ {| startLine := 2; generated := "@font-face{font-family:X;src:url(a.woff2)}" |};
      {| startLine := 3; generated := "@font-face{font-family:X;src:url(b.woff2)}" |} ] in
  if (input =? headedCss)%string then
    {| reported := [ {| value := " latin "; endLine := 1 |} ]; fontFaceNodes := rules |}
  else if (input =? trailedCss)%string then
    {| reported := [ {| value := " latin "; endLine := 1 |};
                     {| value := " end "; endLine := 4 |} ];
       fontFaceNodes := rules |}
  else sampleParse input.

Section Provider.

Set Default Proof Using "Type".

(** ** External collaborators *)

(** [String.prototype.localeCompare] of the host. *)
Variable localeCompare : string -> string -> Z.

(** css-tree's [parse] with [onComment], followed by [findAll]. *)
Variable parse : string -> Parsed.

(** ** googleFlavoredSorting *)

Definition isLowercase (a : string) : bool :=
  (charAt0 a =? toLowerCase (charAt0 a))%string.

Definition googleFlavoredSorting (a b : string) : Z :=
  let isALowercase := isLowercase a in
  let isBLowercase := isLowercase b in
  if negb (Bool.eqb isALowercase isBLowercase)
  then Z.b2z isBLowercase - Z.b2z isALowercase
  else localeCompare a b.

(** ** splitCssIntoSubsets *)

(** Line 50: [comments.filter(c => c.endLine < node.loc.start.line).at(-1)] *)
Definition precedingComment (comments : list Comment) (node : FontFaceNode)
  : option Comment :=
  atLast (filter (fun comment => endLine comment <? startLine node) comments).

Definition splitCssIntoSubsets (input : string) : list SubsetGroup :=
  let parsed := parse input in
  let comments :=
    map (fun c => {| value := trim (value c); endLine := endLine c |})
        (reported parsed) in
  let nodes := fontFaceNodes parsed in
  if (List.length comments =? 0)%nat
  then [ {| subset := None; css := input |} ]
  else
    fold_left
      (fun data node =>
         match precedingComment comments node with
         | None => data
         | Some comment =>
             data ++ [ {| subset := Some (value comment); css := generated node |} ]
         end)
      nodes [].

(** ** The provider closure *)

Variable Face : Type.
Variable Store : Type.

(** [extractFontFaceData] of [../css/parse]; every call builds its records
    anew, so stamping one batch in place cannot reach another. *)
Variable extractFontFaceData : string -> list (FontFaceData Face).

(** [prepareWeights] of [../utils], applied to [inputWeights],
    [hasVariableWeights] and [weights]. *)
Variable prepareWeights : list string -> bool -> list string -> list PreparedWeight.

(** What the font service answers a request with: the CSS text, or a
    failure, on which [$fetch] rejects. *)
Variable upstream : Request -> outcome string.

(** [hash] of ohash. *)
Variable hash : ResolveFontOptions -> string.

(** Calls that reach the network or the storage run in this monad. *)
Definition M (A : Type) : Type := World Store -> outcome A * World Store.

Definition ret {A : Type} (a : A) : M A := fun w => (Returned a, w).

Definition throw {A : Type} : M A := fun w => (Thrown, w).

Definition bind {A B : Type} (c : M A) (k : A -> M B) : M B :=
  fun w =>
    match c w with
    | (Returned a, w') => k a w'
    | (Thrown, w') => (Thrown, w')
    end.

Notation "x <- c ;; k" := (bind c (fun x => k))
  (at level 61, c at next level, right associativity).

(** [await $fetch]: the request is sent; the call yields the upstream CSS
    text, or throws when the service fails. *)
Definition fetch (r : Request) : M string :=
  fun w => (upstream r, {| requests := requests w ++ [r]; store := store w |}).

(** [ctx.storage.getItem(key, init)]. *)
Variable getItem : string -> M (list (FontFaceData Face)) -> M (list (FontFaceData Face)).

(** The provider options [_options] and the cached family index. *)
Variable _options : ProviderOption.
Variable googleFonts : list FontIndexMeta.

Definition renderAxisEntry (v : AxisEntry) : string :=
  match v with
  | Range lo hi => (lo ++ ".." ++ hi)%string
  | Literal s => s
  end.

(** [_options?.experimental?.variableAxis?.[family] ?? {}] *)
Definition familyAxes (fontFamily : string) : list (string * list AxisEntry) :=
  match lookup fontFamily (variableAxis _options) with
  | Some axes => axes
  | None => []
  end.

(** The value of [axisValue] (lines 99-102).  The object literal is indexed
    first: it has [wght] and [ital] of its own and inherits the members of
    [Object.prototype], none of which is nullish.  Only for another name is
    the family's map read, and a name without an entry there makes [.map]
    throw. *)
Definition axisValueOf (wts : list PreparedWeight) (sts : list string)
    (overrides : list (string * list AxisEntry)) (axis : string)
  : outcome AxisValue :=
  if (axis =? "wght")%string then Returned (Strings (map weight wts))
  else if (axis =? "ital")%string then Returned (Strings sts)
  else match lookup axis objectPrototype with
       | Some arity => Returned (Inherited arity)
       | None =>
           match lookup axis overrides with
           | Some vs => Returned (Strings (map renderAxisEntry vs))
           | None => Thrown
           end
       end.

(** [resolvedVariants.length] *)
Definition lengthOf (v : AxisValue) : option Z :=
  match v with
  | Strings values => Some (Z.of_nat (List.length values))
  | Inherited arity => arity
  end.

(** Line 108: every variant joined with every value, sorted. *)
Definition crossJoin (resolvedVariants axisValue : list string) : list string :=
  sortStrings
    (flat_map (fun v => map (fun o => join "," [v; o]) axisValue)
              resolvedVariants).

(** One more axis folded into the running variants (lines 104-109).  When
    the length is not 0, [flatMap] is called: an inherited member has none,
    and on an array, which is then non-empty, the callback runs and spreads
    [axisValue], which throws unless it is an array. *)
Definition foldAxis (resolvedVariants axisValue : AxisValue) : outcome AxisValue :=
  match lengthOf resolvedVariants with
  | Some 0 => Returned axisValue
  | _ =>
      match resolvedVariants, axisValue with
      | Strings variants, Strings values => Returned (Strings (crossJoin variants values))
      | _, _ => Thrown
      end
  end.

(** The loop of lines 98-111, from the state it has reached. *)
Fixpoint resolveLoop (wts : list PreparedWeight) (sts : list string)
    (overrides : list (string * list AxisEntry)) (axes : list string)
    (resolvedAxes : list string) (resolvedVariants : AxisValue)
  : outcome (list string * AxisValue) :=
  match axes with
  | [] => Returned (resolvedAxes, resolvedVariants)
  | axis :: rest =>
      match axisValueOf wts sts overrides axis with
      | Thrown => Thrown
      | Returned axisValue =>
          match foldAxis resolvedVariants axisValue with
          | Thrown => Thrown
          | Returned next =>
              resolveLoop wts sts overrides rest (resolvedAxes ++ [axis]) next
          end
      end
  end.

Definition activeAxes (overrides : list (string * list AxisEntry)) : list string :=
  sortBy googleFlavoredSorting ("wght" :: "ital" :: keys overrides).

(** Lines 95-111, and what line 123 needs of their result: the axis order
    and the variant tuples.  [resolvedVariants.join(';')] throws, before the
    first request, when the loop ended on a value that is not an array. *)
Definition resolveAxes (wts : list PreparedWeight) (sts : list string)
    (overrides : list (string * list AxisEntry))
  : outcome (list string * list string) :=
  match resolveLoop wts sts overrides (activeAxes overrides) [] (Strings []) with
  | Returned (resolvedAxes, Strings resolvedVariants) =>
      Returned (resolvedAxes, resolvedVariants)
  | _ => Thrown
  end.

(** [[...new Set(options.styles.map(i => styleMap[i]))].sort()] *)
Definition styleCodes (l : list Style) : list string :=
  sortStrings (uniq (map styleMap l)).

(** The weights of lines 81-90. *)
Definition resolvedWeights (font : FontIndexMeta) (options : ResolveFontOptions)
  : list PreparedWeight :=
  map (fun v => if variable v
                then {| weight := replaceSpace (weight v); variable := variable v |}
                else v)
      (prepareWeights (weights options)
                      (existsb (fun a => (a =? "wght")%string) (axisTags font))
                      (fontKeys font)).

(** [f.meta ??= {}; f.meta.priority = priority] *)
Definition setPriority (p : Z) (f : FontFaceData Face) : FontFaceData Face :=
  {| face := face f; meta := Some {| priority := Some p |} |}.

(** The subset filter of line 129; a null or empty label is falsy. *)
Definition keepGroup (options : ResolveFontOptions) (group : SubsetGroup) : bool :=
  match subset group with
  | None => true
  | Some EmptyString => true
  | Some s => existsb (fun x => (x =? s)%string) (subsets options)
  end.

(** Line 80: [_options.experimental?.glyphs?.[family]?.join('')].  The
    chain stops at an absent [glyphs] and at a family without a property;
    a family named like an inherited member finds that member, which has no
    [join], and the call throws.  The text is spread into the query only when
    truthy, so an empty text counts as none. *)
Definition glyphsText (fontFamily : string) : outcome (option string) :=
  match glyphs _options with
  | None => Returned None
  | Some perFamily =>
      match lookup fontFamily perFamily with
      | Some gs =>
          Returned (match join "" gs with
                    | EmptyString => None
                    | text => Some text
                    end)
      | None =>
          match lookup fontFamily objectPrototype with
          | Some _ => Thrown
          | None => Returned None
          end
      end
  end.

Definition css2Request (fontFamily : string) (resolvedAxes resolvedVariants : list string)
    (text : option string) (agent : string) : Request :=
  {| userAgent := agent;
     familyQuery := (fontFamily ++ ":" ++ join "," resolvedAxes ++ "@"
                     ++ join ";" resolvedVariants)%string;
     textQuery := text |}.

(** The loop of lines 116-140 over the remaining flavors, from the state
    [priority], [resolvedFontFaceData] it has reached. *)
Fixpoint flavorLoop (fontFamily : string) (options : ResolveFontOptions)
    (resolvedAxes resolvedVariants : list string) (text : option string)
    (flavors : list (string * string))
    (priority : Z) (resolvedFontFaceData : list (FontFaceData Face))
  : M (list (FontFaceData Face)) :=
  match flavors with
  | [] => ret resolvedFontFaceData
  | (_, agent) :: rest =>
      rawCss <- fetch (css2Request fontFamily resolvedAxes resolvedVariants text agent) ;;
      let groups := filter (keepGroup options) (splitCssIntoSubsets rawCss) in
      let pushed :=
        fold_left
          (fun acc group =>
             acc ++ map (setPriority priority) (extractFontFaceData (css group)))
          groups resolvedFontFaceData in
      flavorLoop fontFamily options resolvedAxes resolvedVariants text rest
                 (priority + 1) pushed
  end.

Definition getFontDetails (fontFamily : string) (options : ResolveFontOptions)
  : M (list (FontFaceData Face)) :=
  match find (fun font => (family font =? fontFamily)%string) googleFonts with
  | None => throw
  | Some font =>
      let sts := styleCodes (styles options) in
      match glyphsText fontFamily with
      | Thrown => throw
      | Returned text =>
          let wts := resolvedWeights font options in
          if (List.length wts =? 0)%nat || (List.length sts =? 0)%nat
          then ret []
          else
            match resolveAxes wts sts (familyAxes fontFamily) with
            | Thrown => throw
            | Returned (resolvedAxes, resolvedVariants) =>
                flavorLoop fontFamily options resolvedAxes resolvedVariants text
                           userAgents 0 []
            end
      end
  end.

Definition listFonts : list string := map family googleFonts.

(** [resolveFont]: [None] is the bare [return] of line 151. *)
Definition resolveFont (fontFamily : string) (options : ResolveFontOptions)
  : M (option (list (FontFaceData Face))) :=
  if negb (existsb (fun font => (family font =? fontFamily)%string) googleFonts)
  then ret None
  else
    fonts <- getItem ("google:" ++ fontFamily ++ "-" ++ hash options ++ "-data.json")%string
                     (getFontDetails fontFamily options) ;;
    ret (Some fonts).

(** ** Vocabulary of the properties *)

(** A name that starts with a lower-case letter, with an upper-case letter. *)
Definition lowercaseLed (s : string) : bool :=
  match s with
  | EmptyString => false
  | String c _ => isLowerUnit c
  end.

Definition uppercaseLed (s : string) : bool :=
  match s with
  | EmptyString => false
  | String c _ => isUpperUnit c
  end.

(** Comments as the tokenizer meets them: end lines never decrease. *)
Fixpoint inDocumentOrder (comments : list Comment) : bool :=
  match comments with
  | [] => true
  | c :: r => forallb (fun c' => endLine c <=? endLine c') r && inDocumentOrder r
  end.

(** [c] is a comment whose end line is the greatest one strictly less than
    the start line of [node]. *)
Definition nearestPreceding (comments : list Comment) (node : FontFaceNode)
    (c : Comment) : Prop :=
  In c comments /\ endLine c < startLine node /\
  forall c', In c' comments -> endLine c' < startLine node -> endLine c' <= endLine c.

Definition uniquelyAttributable (comments : list Comment) (node : FontFaceNode) : Prop :=
  exists c, nearestPreceding comments node c /\
            forall c', nearestPreceding comments node c' -> c' = c.

(** A rule with some comment ending strictly before its start line. *)
Definition hasPrecedingComment (comments : list Comment) (node : FontFaceNode) : bool :=
  existsb (fun c => endLine c <? startLine node) comments.

(** The number of rows of the cartesian product of the value lists. *)
Definition tupleCount (vals : list (list string)) : nat :=
  fold_right (fun values n => (List.length values * n)%nat) 1%nat vals.

(** [t] is the comma-join of one token per value list, in the order of the
    lists. *)
Definition tupleOf (vals : list (list string)) (t : string) : Prop :=
  exists tokens, t = join "," tokens /\
                 Forall2 (fun token values => In token values) tokens vals.

(** What the loop has established once at least one axis is folded in. *)
Definition folded (vals : list (list string)) (variants : list string) : Prop :=
  vals <> [] /\ variants <> [] /\
  List.length variants = tupleCount vals /\
  forall t, In t variants -> tupleOf vals t.

(** The value lists of the axes [axes], in the same order. *)
Definition valueLists (wts : list PreparedWeight) (sts : list string)
    (overrides : list (string * list AxisEntry))
    (axes : list string) (vals : list (list string)) : Prop :=
  Forall2 (fun axis values =>
             axisValueOf wts sts overrides axis = Returned (Strings values))
          axes vals.

(** A name every plain object answers to with an inherited member. *)
Definition inheritedName (k : string) : bool :=
  match lookup k objectPrototype with
  | Some _ => true
  | None => false
  end.

(** The world once the requests [sent] have been added to the log. *)
Definition afterRequests (w : World Store) (sent : list Request) : World Store :=
  {| requests := requests w ++ sent; store := store w |}.

Definition hasNormal (l : list Style) : bool :=
  existsb (fun i => match i with normal => true | _ => false end) l.

Definition hasSlanted (l : list Style) : bool :=
  existsb (fun i => match i with normal => false | _ => true end) l.


Definition withoutOblique (l : list Style) : list Style :=
  filter (fun i => match i with oblique => false | _ => true end) l.

Definition priorityOf (f : FontFaceData Face) : option Z :=
  match meta f with
  | Some m => priority m
  | None => None
  end.

(** The records one flavor contributes: those extracted from the fragments
    of [groups] that pass the subset filter, stamped with [p]. *)
Definition flavorFaces (p : Z) (options : ResolveFontOptions)
    (groups : list SubsetGroup) : list (FontFaceData Face) :=
  flat_map (fun group => map (setPriority p) (extractFontFaceData (css group)))
           (filter (keepGroup options) groups).

(** The user agent of the [i]-th flavor, in the order [for ... in] visits
    [userAgents]. *)
Definition agentOf (i : nat) : string := snd (nth i userAgents ("", "")).

Fixpoint nondecreasing (l : list Z) : bool :=
  match l with
  | [] => true
  | x :: r => forallb (fun y => x <=? y) r && nondecreasing r
  end.

(** Every choice of one token per value list is among [variants]. *)
Definition covered (vals : list (list string)) (variants : list string) : Prop :=
  forall tokens, Forall2 (fun token values => In token values) tokens vals ->
                 In (join "," tokens) variants.

(** Ascending code-unit order. *)
Definition ascending (l : list string) : Prop :=
  Sorted (fun a b => (a <=? b)%string = true) l.

Fixpoint hasSpace (s : string) : bool :=
  match s with
  | EmptyString => false
  | String c r => (c =? " ")%char || hasSpace r
  end.

Fixpoint hasComma (s : string) : bool :=
  match s with
  | EmptyString => false
  | String c r => (c =? ",")%char || hasComma r
  end.


(** ** Lists, sorting and [at(-1)] *)

Lemma atLast_map {A B : Type} (f : A -> B) (l : list A) :
  atLast (map f l) = option_map f (atLast l).
Proof.
  induction l as [|x [|y r] IH]; simpl in *; auto.
Qed.

Lemma atLast_In {A : Type} (l : list A) (x : A) :
  atLast l = Some x -> In x l.
Proof.
  induction l as [|y [|z r] IH]; simpl; intros H.
  - discriminate.
  - left. congruence.
  - right. apply IH. exact H.
Qed.

Lemma atLast_None {A : Type} (l : list A) :
  atLast l = None -> l = [].
Proof.
  induction l as [|y [|z r] IH]; simpl; intros H; auto; try discriminate.
  apply IH in H. discriminate.
Qed.

Lemma atLast_cons {A : Type} (x : A) (l : list A) :
  atLast (x :: l) = match atLast l with Some y => Some y | None => Some x end.
Proof.
  destruct l as [|y r]; [reflexivity|].
  change (atLast (x :: y :: r)) with (atLast (y :: r)).
  destruct (atLast (y :: r)) eqn:E; [reflexivity|].
  apply atLast_None in E. discriminate.
Qed.

Lemma insertBy_length {A : Type} (cmp : A -> A -> Z) (x : A) (l : list A) :
  List.length (insertBy cmp x l) = S (List.length l).
Proof.
  induction l as [|y r IH]; simpl; [reflexivity|].
  destruct (cmp x y <=? 0); simpl; auto.
Qed.

Lemma sortBy_length {A : Type} (cmp : A -> A -> Z) (l : list A) :
  List.length (sortBy cmp l) = List.length l.
Proof.
  induction l as [|x r IH]; simpl; [reflexivity|].
  rewrite insertBy_length. auto.
Qed.

Lemma insertBy_In {A : Type} (cmp : A -> A -> Z) (x y : A) (l : list A) :
  In y (insertBy cmp x l) <-> y = x \/ In y l.
Proof.
  induction l as [|z r IH]; simpl.
  - intuition congruence.
  - destruct (cmp x z <=? 0); simpl; rewrite ?IH; intuition congruence.
Qed.

Lemma sortBy_In {A : Type} (cmp : A -> A -> Z) (y : A) (l : list A) :
  In y (sortBy cmp l) <-> In y l.
Proof.
  induction l as [|x r IH]; simpl; [tauto|].
  rewrite insertBy_In, IH. intuition congruence.
Qed.

(** ** The partitioner *)

Lemma push_loop_flat_map {A B C : Type} (f : A -> option C) (h : A -> C -> B)
    (l : list A) (acc : list B) :
  fold_left (fun data a => match f a with
                           | None => data
                           | Some c => data ++ [h a c]
                           end) l acc
  = acc ++ flat_map (fun a => match f a with
                              | None => []
                              | Some c => [h a c]
                              end) l.
Proof.
  revert acc. induction l as [|a r IH]; intros acc; simpl.
  - now rewrite app_nil_r.
  - rewrite IH. destruct (f a); simpl; [now rewrite <- app_assoc | reflexivity].
Qed.

Lemma trimmed_reported_nil (comments : list Comment) :
  (List.length (map (fun c => {| value := trim (value c); endLine := endLine c |})
                    comments) =? 0)%nat = true <-> comments = [].
Proof.
  destruct comments; simpl; split; intros H; congruence.
Qed.

Lemma precedingComment_trimmed (comments : list Comment) (node : FontFaceNode) :
  precedingComment
    (map (fun c => {| value := trim (value c); endLine := endLine c |}) comments) node
  = option_map (fun c => {| value := trim (value c); endLine := endLine c |})
               (precedingComment comments node).
Proof.
  unfold precedingComment.
  rewrite <- atLast_map. f_equal.
  induction comments as [|c r IH]; simpl; [reflexivity|].
  destruct (endLine c <? startLine node); simpl; now rewrite IH.
Qed.

Lemma precedingComment_None (comments : list Comment) (node : FontFaceNode) :
  precedingComment comments node = None <-> hasPrecedingComment comments node = false.
Proof.
  unfold precedingComment, hasPrecedingComment.
  induction comments as [|c r IH]; [simpl; tauto|].
  cbn [filter existsb].
  destruct (endLine c <? startLine node) eqn:E; cbn [orb].
  - rewrite atLast_cons.
    destruct (atLast _); split; discriminate.
  - exact IH.
Qed.

Lemma precedingComment_Some (comments : list Comment) (node : FontFaceNode) (c : Comment) :
  precedingComment comments node = Some c ->
  In c comments /\ endLine c < startLine node.
Proof.
  unfold precedingComment. intros H.
  apply atLast_In, filter_In in H. destruct H as [H1 H2].
  split; [exact H1 | now apply Z.ltb_lt].
Qed.

Lemma precedingComment_greatest (comments : list Comment) (node : FontFaceNode)
    (c : Comment) :
  inDocumentOrder comments = true ->
  precedingComment comments node = Some c ->
  forall c', In c' comments -> endLine c' < startLine node -> endLine c' <= endLine c.
Proof.
  unfold precedingComment.
  induction comments as [|x r IH]; intros Hs Hl c' Hin Hlt; [contradiction|].
  cbn [inDocumentOrder] in Hs. cbn [filter] in Hl.
  apply andb_true_iff in Hs. destruct Hs as [Hx Hr].
  destruct (endLine x <? startLine node) eqn:E.
  - rewrite atLast_cons in Hl.
    destruct (atLast (filter _ r)) as [y|] eqn:El.
    + injection Hl as <-.
      destruct Hin as [<- | Hin].
      * apply atLast_In, filter_In in El. destruct El as [El _].
        rewrite forallb_forall in Hx. apply Z.leb_le. now apply Hx.
      * now apply (IH Hr eq_refl c').
    + injection Hl as <-.
      destruct Hin as [<- | Hin]; [lia|].
      apply atLast_None in El.
      assert (Hf : In c' (filter (fun comment => endLine comment <? startLine node) r)).
      { apply filter_In. split; [exact Hin | now apply Z.ltb_lt]. }
      rewrite El in Hf. contradiction.
  - destruct Hin as [<- | Hin].
    + apply Z.ltb_ge in E. lia.
    + now apply (IH Hr Hl c').
Qed.

Lemma splitCssIntoSubsets_with_comments (input : string) :
  reported (parse input) <> [] ->
  splitCssIntoSubsets input
  = flat_map (fun node =>
                match precedingComment (reported (parse input)) node with
                | None => []
                | Some c => [ {| subset := Some (trim (value c)); css := generated node |} ]
                end)
             (fontFaceNodes (parse input)).
Proof.
  intros Hne. unfold splitCssIntoSubsets.
  destruct (_ =? 0)%nat eqn:E.
  - apply trimmed_reported_nil in E. contradiction.
  - rewrite (push_loop_flat_map
               (precedingComment
                  (map (fun c => {| value := trim (value c); endLine := endLine c |})
                       (reported (parse input))))
               (fun node comment =>
                  {| subset := Some (value comment); css := generated node |})).
    simpl.
    apply flat_map_ext. intros node.
    rewrite precedingComment_trimmed.
    destruct (precedingComment (reported (parse input)) node); reflexivity.
Qed.

Lemma lowercaseLed_isLowercase (a : string) :
  lowercaseLed a = true -> isLowercase a = true.
Proof.
  destruct a as [|c r]; [discriminate|].
  unfold lowercaseLed, isLowercase, charAt0, toLowerCase.
  destruct c as [[] [] [] [] [] [] [] []]; intros H;
    solve [discriminate H | reflexivity].
Qed.

Lemma uppercaseLed_isLowercase (a : string) :
  uppercaseLed a = true -> isLowercase a = false.
Proof.
  destruct a as [|c r]; [discriminate|].
  unfold uppercaseLed, isLowercase, charAt0, toLowerCase.
  destruct c as [[] [] [] [] [] [] [] []]; intros H;
    solve [discriminate H | reflexivity].
Qed.

(** ** Claims about the comparator and the partitioner *)

(** C2. The axis-name comparator puts a name that starts with a lower-case
    letter before any name that starts with an upper-case letter, whatever the
    letters are (the result is -1, and 1 the other way round, without the
    collation being consulted); two names of the same case-class are compared
    as strings, by the host's [localeCompare].  In particular "wdth" goes
    before "Wdth" and "zzz" before "AAA". *)
Theorem googleFlavoredSorting_case_classes (a b : string) :
  (lowercaseLed a = true -> uppercaseLed b = true ->
   googleFlavoredSorting a b = -1 /\ googleFlavoredSorting b a = 1)
  /\ (lowercaseLed a = true /\ lowercaseLed b = true
      \/ uppercaseLed a = true /\ uppercaseLed b = true ->
      googleFlavoredSorting a b = localeCompare a b)
  /\ googleFlavoredSorting "wdth" "Wdth" = -1
  /\ googleFlavoredSorting "zzz" "AAA" = -1.
Proof.
  split; [|split; [|split; reflexivity]].
  - intros Ha Hb. unfold googleFlavoredSorting.
    rewrite (lowercaseLed_isLowercase a Ha), (uppercaseLed_isLowercase b Hb).
    split; reflexivity.
  - intros [[Ha Hb] | [Ha Hb]]; unfold googleFlavoredSorting.
    + now rewrite (lowercaseLed_isLowercase a Ha), (lowercaseLed_isLowercase b Hb).
    + now rewrite (uppercaseLed_isLowercase a Ha), (uppercaseLed_isLowercase b Hb).
Qed.

(** C6. When the parse of the input reports no comment, the partitioner
    returns exactly one fragment, with no subset label and the whole input as
    its CSS text. *)
Theorem splitCssIntoSubsets_without_comments (input : string) :
  reported (parse input) = [] ->
  splitCssIntoSubsets input = [ {| subset := None; css := input |} ].
Proof.
  intros H. unfold splitCssIntoSubsets. rewrite H. reflexivity.
Qed.

(** C5. When the input has at least one comment, the fragments are, in
    order, those of the font-face rules that have a comment ending strictly
    before their start line; a rule without such a comment contributes
    nothing, so the output is that of the document without the rule. *)
Theorem orphan_rules_dropped (input : string) :
  reported (parse input) <> [] ->
  Forall2 (fun node group =>
             css group = generated node /\
             exists c, In c (reported (parse input)) /\
                       endLine c < startLine node /\
                       subset group = Some (trim (value c)))
          (filter (hasPrecedingComment (reported (parse input)))
                  (fontFaceNodes (parse input)))
          (splitCssIntoSubsets input)
  /\ forall before node after input',
       fontFaceNodes (parse input) = before ++ node :: after ->
       hasPrecedingComment (reported (parse input)) node = false ->
       reported (parse input') = reported (parse input) ->
       fontFaceNodes (parse input') = before ++ after ->
       splitCssIntoSubsets input = splitCssIntoSubsets input'.
Proof.
  intros Hne. split.
  - rewrite (splitCssIntoSubsets_with_comments input Hne).
    induction (fontFaceNodes (parse input)) as [|node nodes IH]; simpl; [constructor|].
    destruct (precedingComment (reported (parse input)) node) as [c|] eqn:E.
    + assert (Hh : hasPrecedingComment (reported (parse input)) node = true).
      { destruct (hasPrecedingComment (reported (parse input)) node) eqn:Hh; auto.
        apply precedingComment_None in Hh. congruence. }
      rewrite Hh. simpl. constructor; [|exact IH].
      apply precedingComment_Some in E. destruct E as [E1 E2].
      split; [reflexivity|]. exists c. auto.
    + apply precedingComment_None in E. rewrite E. exact IH.
  - intros before node after input' Hnodes Horphan Hc Hn.
    assert (Hne' : reported (parse input') <> []) by (now rewrite Hc).
    rewrite (splitCssIntoSubsets_with_comments input Hne).
    rewrite (splitCssIntoSubsets_with_comments input' Hne').
    rewrite Hc, Hn, Hnodes, !flat_map_app. simpl.
    apply precedingComment_None in Horphan. rewrite Horphan. reflexivity.
Qed.

(** C4, amended.  When the input has at least one comment, its comments are
    reported in document order, and every font-face rule has exactly one
    nearest preceding comment (a comment whose end line is the greatest one
    strictly less than the rule's start line), the partitioner returns one
    fragment per font-face rule, in document order, each carrying the text
    generated for its rule and the trimmed text of that comment as label. *)
Theorem partition_labels_by_nearest_comment (input : string) :
  reported (parse input) <> [] ->
  inDocumentOrder (reported (parse input)) = true ->
  (forall node, In node (fontFaceNodes (parse input)) ->
                uniquelyAttributable (reported (parse input)) node) ->
  List.length (splitCssIntoSubsets input) = List.length (fontFaceNodes (parse input))
  /\ Forall2 (fun node group =>
                css group = generated node /\
                forall c, nearestPreceding (reported (parse input)) node c ->
                          subset group = Some (trim (value c)))
             (fontFaceNodes (parse input))
             (splitCssIntoSubsets input).
Proof.
  intros Hne Hord Hall.
  assert (HF : Forall2 (fun node group =>
                css group = generated node /\
                forall c, nearestPreceding (reported (parse input)) node c ->
                          subset group = Some (trim (value c)))
             (fontFaceNodes (parse input))
             (splitCssIntoSubsets input)).
  { rewrite (splitCssIntoSubsets_with_comments input Hne).
    induction (fontFaceNodes (parse input)) as [|node nodes IH]; simpl; [constructor|].
    destruct (Hall node (or_introl eq_refl)) as [c0 [[Hin [Hlt Hmax]] Huniq]].
    destruct (precedingComment (reported (parse input)) node) as [c|] eqn:E.
    - simpl. constructor.
      + split; [reflexivity|]. intros c' Hc'. simpl.
        assert (Hc : nearestPreceding (reported (parse input)) node c).
        { destruct (precedingComment_Some _ _ _ E) as [E1 E2].
          split; [exact E1|]. split; [exact E2|].
          now apply precedingComment_greatest. }
        rewrite (Huniq c Hc), (Huniq c' Hc'). reflexivity.
      + apply IH. intros n Hn. apply Hall. now right.
    - exfalso. apply precedingComment_None in E.
      unfold hasPrecedingComment in E.
      assert (Ht : existsb (fun c => endLine c <? startLine node)
                           (reported (parse input)) = true).
      { apply existsb_exists. exists c0. split; [exact Hin | now apply Z.ltb_lt]. }
      congruence. }
  split; [|exact HF].
  symmetry. eapply Forall2_length. exact HF.
Qed.

(** ** The axis resolver *)

Lemma lookup_keys {A : Type} (k : string) (m : list (string * A)) :
  In k (keys m) -> exists v, lookup k m = Some v /\ In (k, v) m.
Proof.
  induction m as [|[k' v] r IH]; simpl; [contradiction|].
  intros H. destruct (String.eqb_spec k' k) as [->|Hne].
  - exists v. auto.
  - destruct H as [H|H]; [contradiction|].
    destruct (IH H) as [v' [H1 H2]]. exists v'. auto.
Qed.

Lemma activeAxes_In (overrides : list (string * list AxisEntry)) (axis : string) :
  In axis (activeAxes overrides) <->
  axis = "wght" \/ axis = "ital" \/ In axis (keys overrides).
Proof.
  unfold activeAxes. rewrite sortBy_In. simpl.
  split; (intros [H|[H|H]];
          [left; symmetry; exact H | right; left; symmetry; exact H | right; right; exact H]).
Qed.

Lemma axisValueOf_nonempty (wts : list PreparedWeight) (sts : list string)
    (overrides : list (string * list AxisEntry)) (axis : string) :
  wts <> [] -> sts <> [] ->
  (forall a vs, In (a, vs) overrides -> inheritedName a = false /\ vs <> []) ->
  In axis (activeAxes overrides) ->
  exists values,
    axisValueOf wts sts overrides axis = Returned (Strings values) /\ values <> [].
Proof.
  intros Hw Hs Ho H. unfold axisValueOf.
  destruct (axis =? "wght")%string eqn:Ew.
  { exists (map weight wts). split; [reflexivity|]. destruct wts; [congruence | discriminate]. }
  destruct (axis =? "ital")%string eqn:Ei; [eauto|].
  apply activeAxes_In in H.
  destruct H as [->|[->|H]]; [discriminate Ew | discriminate Ei |].
  destruct (lookup_keys _ _ H) as [v [Hv Hin]].
  destruct (Ho _ _ Hin) as [Hown Hne]. unfold inheritedName in Hown.
  destruct (lookup axis objectPrototype); [discriminate Hown|].
  rewrite Hv. exists (map renderAxisEntry v). split; [reflexivity|].
  destruct v; [congruence | discriminate].
Qed.

Lemma foldAxis_start (axisValue : AxisValue) :
  foldAxis (Strings []) axisValue = Returned axisValue.
Proof. reflexivity. Qed.

Lemma foldAxis_strings (variants values : list string) :
  variants <> [] ->
  foldAxis (Strings variants) (Strings values)
  = Returned (Strings (crossJoin variants values)).
Proof.
  intros Hne. destruct variants as [|v r]; [congruence | reflexivity].
Qed.

Lemma resolveAxes_of_loop (wts : list PreparedWeight) (sts : list string)
    (overrides : list (string * list AxisEntry)) (axes variants : list string) :
  resolveLoop wts sts overrides (activeAxes overrides) [] (Strings [])
  = Returned (axes, Strings variants) ->
  resolveAxes wts sts overrides = Returned (axes, variants).
Proof.
  intros H. unfold resolveAxes. now rewrite H.
Qed.

Lemma tupleCount_snoc (vals : list (list string)) (values : list string) :
  tupleCount (vals ++ [values]) = (tupleCount vals * List.length values)%nat.
Proof.
  unfold tupleCount.
  induction vals as [|v r IH]; simpl; [lia|].
  rewrite IH. lia.
Qed.

Lemma pairs_length (rv values : list string) :
  List.length (flat_map (fun v => map (fun o => join "," [v; o]) values) rv)
  = (List.length rv * List.length values)%nat.
Proof.
  induction rv as [|v r IH]; [reflexivity|].
  cbn [flat_map]. rewrite length_app, length_map, IH. simpl. lia.
Qed.

Lemma join_snoc (sep : string) (tokens : list string) (o : string) :
  tokens <> [] ->
  join sep (tokens ++ [o]) = (join sep tokens ++ sep ++ o)%string.
Proof.
  unfold join.
  induction tokens as [|t [|t' r] IH]; intros Hne; [congruence| reflexivity |].
  change (String.concat sep ((t :: t' :: r) ++ [o]))
    with (t ++ sep ++ String.concat sep ((t' :: r) ++ [o]))%string.
  rewrite IH by discriminate.
  change (String.concat sep (t :: t' :: r))
    with (t ++ sep ++ String.concat sep (t' :: r))%string.
  generalize (String.concat sep (t' :: r)). intros s.
  assert (Happ : forall a b c : string, ((a ++ b) ++ c = a ++ (b ++ c))%string).
  { induction a; simpl; intros; [reflexivity | now rewrite IHa]. }
  now rewrite !Happ.
Qed.

Lemma folded_first (values : list string) :
  values <> [] -> folded [values] values.
Proof.
  intros Hne.
  repeat split; [discriminate | exact Hne | simpl; lia |].
  intros t Ht. exists [t]. split; [reflexivity|].
  constructor; [exact Ht | constructor].
Qed.

Lemma folded_next (vals : list (list string)) (variants values : list string) :
  folded vals variants -> values <> [] ->
  folded (vals ++ [values]) (crossJoin variants values).
Proof.
  intros [Hv [Hne [Hlen Htup]]] Hvalues. unfold crossJoin.
  assert (Hl : List.length
                 (sortStrings (flat_map (fun v => map (fun o => join "," [v; o]) values)
                                        variants))
               = tupleCount (vals ++ [values])).
  { unfold sortStrings. rewrite sortBy_length, pairs_length, tupleCount_snoc. lia. }
  repeat split.
  - destruct vals; discriminate.
  - intros Hnil. rewrite Hnil in Hl. rewrite tupleCount_snoc, <- Hlen in Hl.
    destruct variants; [congruence|]. destruct values; [congruence | discriminate Hl].
  - exact Hl.
  - intros t Ht. unfold sortStrings in Ht. apply sortBy_In in Ht.
    apply in_flat_map in Ht. destruct Ht as [v [Hin Ht]].
    apply in_map_iff in Ht. destruct Ht as [o [<- Ho]].
    destruct (Htup v Hin) as [tokens [-> HF]].
    exists (tokens ++ [o]). split.
    + rewrite join_snoc; [reflexivity|].
      intros ->. inversion HF; subst. congruence.
    + apply Forall2_app; [exact HF|]. constructor; [exact Ho | constructor].
Qed.

(** The loop keeps [folded], and any [P] that holds of the first value list
    and is kept by [crossJoin], as long as every axis has a non-empty value
    list. *)
Lemma resolveLoop_invariant (P : list (list string) -> list string -> Prop)
    (wts : list PreparedWeight) (sts : list string)
    (overrides : list (string * list AxisEntry)) :
  (forall values, values <> [] -> P [values] values) ->
  (forall vals variants values,
     folded vals variants -> P vals variants -> values <> [] ->
     P (vals ++ [values]) (crossJoin variants values)) ->
  forall axes,
  (forall axis, In axis axes ->
     exists values,
       axisValueOf wts sts overrides axis = Returned (Strings values) /\ values <> []) ->
  forall done dvals variants,
    valueLists wts sts overrides done dvals ->
    (done = [] /\ variants = []) \/ (folded dvals variants /\ P dvals variants) ->
    done ++ axes <> [] ->
    exists vals variants',
      resolveLoop wts sts overrides axes done (Strings variants)
      = Returned (done ++ axes, Strings variants')
      /\ valueLists wts sts overrides (done ++ axes) vals
      /\ folded vals variants' /\ P vals variants'.
Proof.
  intros Hfirst Hnext.
  induction axes as [|axis rest IH]; intros Hv done dvals variants Hd Hinv Hne.
  - exists dvals, variants. rewrite app_nil_r in *. cbn [resolveLoop].
    destruct Hinv as [[-> _]|[Hf Hp]]; [congruence|]. auto.
  - destruct (Hv axis (or_introl eq_refl)) as [values [Hval Hvne]].
    cbn [resolveLoop]. rewrite Hval.
    assert (Hd' : valueLists wts sts overrides (done ++ [axis]) (dvals ++ [values])).
    { apply Forall2_app; [exact Hd|]. constructor; [exact Hval | constructor]. }
    assert (Hstep : exists next,
               foldAxis (Strings variants) (Strings values) = Returned (Strings next)
               /\ folded (dvals ++ [values]) next /\ P (dvals ++ [values]) next).
    { destruct Hinv as [[-> ->]|[Hf Hp]].
      - exists values. inversion Hd; subst. simpl.
        split; [reflexivity|]. split; [now apply folded_first | now apply Hfirst].
      - exists (crossJoin variants values).
        split; [apply foldAxis_strings; apply Hf|].
        split; [now apply folded_next | now apply Hnext]. }
    destruct Hstep as [next [-> Hf']].
    destruct (IH (fun a Ha => Hv a (or_intror Ha)) (done ++ [axis]) (dvals ++ [values])
                 next Hd' (or_intror Hf'))
      as [vals [variants' [H1 [H2 [H3 H4]]]]].
    { destruct done; discriminate. }
    rewrite <- app_assoc in H1, H2. simpl in H1, H2.
    exists vals, variants'. auto.
Qed.

Lemma activeAxes_not_nil (overrides : list (string * list AxisEntry)) :
  [] ++ activeAxes overrides <> [].
Proof.
  simpl. intros Hnil.
  assert (Hin : In "wght" (activeAxes overrides)) by (apply activeAxes_In; auto).
  rewrite Hnil in Hin. contradiction.
Qed.


(** ** Style codes *)

Lemma uniq_styleMap_shape (l : list Style) :
  match hasNormal l, hasSlanted l with
  | false, false => uniq (map styleMap l) = []
  | true, false => uniq (map styleMap l) = ["0"]
  | false, true => uniq (map styleMap l) = ["1"]
  | true, true => uniq (map styleMap l) = ["0"; "1"] \/ uniq (map styleMap l) = ["1"; "0"]
  end.
Proof.
  induction l as [|x r IH]; [reflexivity|].
  unfold hasNormal, hasSlanted in *. cbn [map uniq existsb].
  destruct x;
    destruct (existsb (fun i => match i with normal => true | _ => false end) r);
    destruct (existsb (fun i => match i with normal => false | _ => true end) r);
    cbn [orb]; try destruct IH as [IH|IH]; rewrite IH; cbn; auto.
Qed.

Lemma styleCodes_summary (l : list Style) :
  styleCodes l
  = (if hasNormal l then ["0"] else []) ++ (if hasSlanted l then ["1"] else []).
Proof.
  unfold styleCodes. generalize (uniq_styleMap_shape l).
  destruct (hasNormal l), (hasSlanted l); intros H;
    try destruct H as [H|H]; rewrite H; reflexivity.
Qed.

Lemma hasNormal_withoutOblique (l : list Style) :
  hasNormal (withoutOblique l) = hasNormal l.
Proof.
  unfold hasNormal, withoutOblique.
  induction l as [|x r IH]; [reflexivity|].
  destruct x; simpl; auto.
Qed.

Lemma hasSlanted_italic (l : list Style) :
  In italic l -> hasSlanted l = true /\ hasSlanted (withoutOblique l) = true.
Proof.
  intros H. unfold hasSlanted, withoutOblique. split; apply existsb_exists; exists italic.
  - auto.
  - split; [|reflexivity]. apply filter_In. auto.
Qed.

(** ** The orchestrator *)

Lemma push_faces (p : Z) (groups : list SubsetGroup) (acc : list (FontFaceData Face)) :
  fold_left (fun acc group =>
               acc ++ map (setPriority p) (extractFontFaceData (css group)))
            groups acc
  = acc ++ flat_map (fun group => map (setPriority p) (extractFontFaceData (css group)))
                    groups.
Proof.
  revert acc. induction groups as [|g r IH]; intros acc; simpl.
  - now rewrite app_nil_r.
  - rewrite IH. now rewrite <- app_assoc.
Qed.

Lemma keepGroup_subsets (o o' : ResolveFontOptions) :
  subsets o = subsets o' -> forall g, keepGroup o g = keepGroup o' g.
Proof.
  intros H g. unfold keepGroup. now rewrite H.
Qed.

Lemma flavorLoop_subsets (fontFamily : string) (o o' : ResolveFontOptions)
    (resolvedAxes resolvedVariants : list string) (text : option string)
    (flavors : list (string * string)) :
  subsets o = subsets o' ->
  forall p acc w,
    flavorLoop fontFamily o resolvedAxes resolvedVariants text flavors p acc w
    = flavorLoop fontFamily o' resolvedAxes resolvedVariants text flavors p acc w.
Proof.
  intros H. induction flavors as [|[ext agent] rest IH]; intros p acc w; [reflexivity|].
  cbn [flavorLoop]. unfold bind, fetch.
  destruct (upstream _); [|reflexivity].
  rewrite (filter_ext _ _ (keepGroup_subsets o o' H)). apply IH.
Qed.

(** The flavor loop on the two user agents: it stops at the first fetch that
    fails; otherwise each flavor contributes its [flavorFaces]. *)
Lemma flavorLoop_userAgents (fontFamily : string) (o : ResolveFontOptions)
    (resolvedAxes resolvedVariants : list string) (text : option string)
    (w : World Store) :
  flavorLoop fontFamily o resolvedAxes resolvedVariants text userAgents 0 [] w
  = match upstream (css2Request fontFamily resolvedAxes resolvedVariants text (agentOf 0)) with
    | Thrown =>
        (Thrown,
         afterRequests w
           [ css2Request fontFamily resolvedAxes resolvedVariants text (agentOf 0) ])
    | Returned css0 =>
        match upstream (css2Request fontFamily resolvedAxes resolvedVariants text (agentOf 1)) with
        | Thrown =>
            (Thrown,
             afterRequests w
               [ css2Request fontFamily resolvedAxes resolvedVariants text (agentOf 0);
                 css2Request fontFamily resolvedAxes resolvedVariants text (agentOf 1) ])
        | Returned css1 =>
            (Returned (flavorFaces 0 o (splitCssIntoSubsets css0)
                       ++ flavorFaces 1 o (splitCssIntoSubsets css1)),
             afterRequests w
               [ css2Request fontFamily resolvedAxes resolvedVariants text (agentOf 0);
                 css2Request fontFamily resolvedAxes resolvedVariants text (agentOf 1) ])
        end
    end.
Proof.
  unfold agentOf, userAgents, afterRequests. cbn [flavorLoop nth snd].
  unfold bind, fetch, ret. cbn [requests store].
  destruct (upstream _) as [css0|]; [|reflexivity].
  destruct (upstream _) as [css1|]; rewrite <- app_assoc; [|reflexivity].
  rewrite !push_faces. unfold flavorFaces. reflexivity.
Qed.

(** [getFontDetails] on a listed family, step by step. *)
Lemma getFontDetails_run (fontFamily : string) (options : ResolveFontOptions)
    (font : FontIndexMeta) (w : World Store) :
  find (fun font => (family font =? fontFamily)%string) googleFonts = Some font ->
  getFontDetails fontFamily options w
  = match glyphsText fontFamily with
    | Thrown => (Thrown, w)
    | Returned text =>
        if (List.length (resolvedWeights font options) =? 0)%nat
           || (List.length (styleCodes (styles options)) =? 0)%nat
        then (Returned [], w)
        else
          match resolveAxes (resolvedWeights font options) (styleCodes (styles options))
                            (familyAxes fontFamily) with
          | Thrown => (Thrown, w)
          | Returned (axes, variants) =>
              match upstream (css2Request fontFamily axes variants text (agentOf 0)) with
              | Thrown =>
                  (Thrown,
                   afterRequests w [ css2Request fontFamily axes variants text (agentOf 0) ])
              | Returned css0 =>
                  match upstream (css2Request fontFamily axes variants text (agentOf 1)) with
                  | Thrown =>
                      (Thrown,
                       afterRequests w
                         [ css2Request fontFamily axes variants text (agentOf 0);
                           css2Request fontFamily axes variants text (agentOf 1) ])
                  | Returned css1 =>
                      (Returned (flavorFaces 0 options (splitCssIntoSubsets css0)
                                 ++ flavorFaces 1 options (splitCssIntoSubsets css1)),
                       afterRequests w
                         [ css2Request fontFamily axes variants text (agentOf 0);
                           css2Request fontFamily axes variants text (agentOf 1) ])
                  end
              end
          end
    end.
Proof.
  intros Hf. unfold getFontDetails. rewrite Hf.
  destruct (glyphsText fontFamily) as [text|]; [|reflexivity].
  destruct (_ || _); [reflexivity|].
  destruct (resolveAxes _ _ _) as [[axes variants]|]; [|reflexivity].
  apply flavorLoop_userAgents.
Qed.

Lemma nonempty_guard {A B : Type} (l : list A) (l' : list B) :
  (List.length l =? 0)%nat || (List.length l' =? 0)%nat = false <-> l <> [] /\ l' <> [].
Proof.
  rewrite orb_false_iff. destruct l, l'; simpl; split; intros [H1 H2];
    split; congruence.
Qed.

Lemma flavorFaces_priority (p : Z) (options : ResolveFontOptions)
    (groups : list SubsetGroup) :
  Forall (fun f => priorityOf f = Some p) (flavorFaces p options groups).
Proof.
  apply Forall_forall. intros f Hf. unfold flavorFaces in Hf.
  apply in_flat_map in Hf. destruct Hf as [g [_ Hf]].
  apply in_map_iff in Hf. destruct Hf as [f0 [<- _]]. reflexivity.
Qed.

Lemma priorities_nondecreasing (l0 l1 : list (FontFaceData Face)) :
  Forall (fun f => priorityOf f = Some 0) l0 ->
  Forall (fun f => priorityOf f = Some 1) l1 ->
  map priorityOf (l0 ++ l1)
  = map Some (map (fun _ => 0) l0 ++ map (fun _ => 1) l1)
  /\ nondecreasing (map (fun _ => 0) l0 ++ map (fun _ => 1) l1) = true.
Proof.
  intros H0 H1. split.
  - rewrite map_app, map_app, !map_map. f_equal; apply map_ext_in; intros f Hf.
    + rewrite Forall_forall in H0. auto.
    + rewrite Forall_forall in H1. auto.
  - clear H0 H1. induction l0 as [|f r IH]; simpl.
    + induction l1 as [|g s IHs]; simpl; [reflexivity|].
      rewrite IHs, andb_true_r. apply forallb_forall.
      intros y Hy. apply in_map_iff in Hy. destruct Hy as [_ [<- _]]. reflexivity.
    + rewrite IH, andb_true_r. apply forallb_forall.
      intros y Hy. apply in_app_or in Hy.
      destruct Hy as [Hy|Hy]; apply in_map_iff in Hy; destruct Hy as [_ [<- _]]; reflexivity.
Qed.

(** ** Claims about the resolution *)


(** C9. For a family name that is not in the cached family index,
    [resolveFont] returns with an absent result (it does not throw and does
    not return a record sequence), whatever the options, and touches neither
    the network nor the storage. *)
Theorem resolveFont_unknown_family (fontFamily : string)
    (options : ResolveFontOptions) (w : World Store) :
  ~ In fontFamily listFonts ->
  resolveFont fontFamily options w = (Returned None, w).
Proof.
  intros Hn. unfold resolveFont.
  destruct (existsb (fun font => (family font =? fontFamily)%string) googleFonts) eqn:E;
    [|reflexivity].
  exfalso. apply Hn. apply existsb_exists in E. destruct E as [font [Hin Heq]].
  apply String.eqb_eq in Heq. subst fontFamily.
  unfold listFonts. now apply in_map.
Qed.

(** C10. "italic" and "oblique" both map to the code "1" and "normal" to
    "0"; a styles list that contains both "italic" and "oblique" yields the
    same style-code list as the list with "oblique" removed, hence the same
    resolution: the same variants, requests and face records. *)
Theorem oblique_is_redundant_with_italic (l : list Style) (fontFamily : string)
    (ws ss : list string) (w : World Store) :
  In italic l -> In oblique l ->
  styleMap italic = "1" /\ styleMap oblique = "1" /\ styleMap normal = "0"
  /\ styleCodes l = styleCodes (withoutOblique l)
  /\ (forall wts overrides,
        resolveAxes wts (styleCodes l) overrides
        = resolveAxes wts (styleCodes (withoutOblique l)) overrides)
  /\ getFontDetails fontFamily {| weights := ws; styles := l; subsets := ss |} w
     = getFontDetails fontFamily
         {| weights := ws; styles := withoutOblique l; subsets := ss |} w.
Proof.
  intros Hi _.
  assert (Hc : styleCodes l = styleCodes (withoutOblique l)).
  { rewrite !styleCodes_summary, hasNormal_withoutOblique.
    destruct (hasSlanted_italic l Hi) as [-> ->]. reflexivity. }
  repeat split; auto.
  - intros wts overrides. now rewrite Hc.
  - unfold getFontDetails.
    destruct (find _ googleFonts) as [font|]; [|reflexivity].
    cbn [styles]. rewrite <- Hc.
    destruct (glyphsText fontFamily) as [text|]; [|reflexivity].
    unfold resolvedWeights. cbn [weights].
    destruct (_ || _); [reflexivity|].
    destruct (resolveAxes _ _ _) as [[resolvedAxes resolvedVariants]|]; [|reflexivity].
    now apply flavorLoop_subsets.
Qed.

(** C3. For a known family there are two fragment lists, one per flavor in
    fetch order and both independent of the requested subsets, such that,
    whatever subsets are requested, every resolution that returns yields the
    records of the first flavor followed by those of the second; each record
    extracted during flavor i carries priority i, whichever fragments the
    subset filter removes, so the priorities never decrease along the result.
    The resolution does return, with the partitions of the two fetched texts
    as fragment lists, whenever the glyph lookup and the axes resolve, the
    selection is not empty and both fetches are answered. *)
Theorem priority_follows_flavor_order (fontFamily : string) (font : FontIndexMeta)
    (ws : list string) (sts : list Style) (w : World Store) :
  find (fun font => (family font =? fontFamily)%string) googleFonts = Some font ->
  exists groups0 groups1,
    (forall wanted,
       let options := {| weights := ws; styles := sts; subsets := wanted |} in
       forall recs w',
         getFontDetails fontFamily options w = (Returned recs, w') ->
         recs = flavorFaces 0 options groups0 ++ flavorFaces 1 options groups1
         /\ Forall (fun f => priorityOf f = Some 0) (flavorFaces 0 options groups0)
         /\ Forall (fun f => priorityOf f = Some 1) (flavorFaces 1 options groups1)
         /\ exists ps, map priorityOf recs = map Some ps /\ nondecreasing ps = true)
    /\ (forall text axes variants css0 css1,
          glyphsText fontFamily = Returned text ->
          resolvedWeights font {| weights := ws; styles := sts; subsets := [] |} <> [] ->
          styleCodes sts <> [] ->
          resolveAxes (resolvedWeights font {| weights := ws; styles := sts; subsets := [] |})
                      (styleCodes sts) (familyAxes fontFamily)
          = Returned (axes, variants) ->
          upstream (css2Request fontFamily axes variants text (agentOf 0)) = Returned css0 ->
          upstream (css2Request fontFamily axes variants text (agentOf 1)) = Returned css1 ->
          groups0 = splitCssIntoSubsets css0
          /\ groups1 = splitCssIntoSubsets css1
          /\ forall wanted,
               exists w',
                 getFontDetails fontFamily
                   {| weights := ws; styles := sts; subsets := wanted |} w
                 = (Returned
                      (flavorFaces 0 {| weights := ws; styles := sts; subsets := wanted |}
                                   groups0
                       ++ flavorFaces 1 {| weights := ws; styles := sts; subsets := wanted |}
                                      groups1),
                    w')).
Proof.
  intros Hf.
  set (wts := resolvedWeights font {| weights := ws; styles := sts; subsets := [] |}).
  assert (Hrun : forall wanted,
            getFontDetails fontFamily {| weights := ws; styles := sts; subsets := wanted |} w
            = match glyphsText fontFamily with
              | Thrown => (Thrown, w)
              | Returned text =>
                  if (List.length wts =? 0)%nat || (List.length (styleCodes sts) =? 0)%nat
                  then (Returned [], w)
                  else
                    match resolveAxes wts (styleCodes sts) (familyAxes fontFamily) with
                    | Thrown => (Thrown, w)
                    | Returned (axes, variants) =>
                        match upstream (css2Request fontFamily axes variants text (agentOf 0)) with
                        | Thrown =>
                            (Thrown,
                             afterRequests w
                               [ css2Request fontFamily axes variants text (agentOf 0) ])
                        | Returned css0 =>
                            match upstream (css2Request fontFamily axes variants text (agentOf 1)) with
                            | Thrown =>
                                (Thrown,
                                 afterRequests w
                                   [ css2Request fontFamily axes variants text (agentOf 0);
                                     css2Request fontFamily axes variants text (agentOf 1) ])
                            | Returned css1 =>
                                (Returned
                                   (flavorFaces 0 {| weights := ws; styles := sts; subsets := wanted |}
                                                (splitCssIntoSubsets css0)
                                    ++ flavorFaces 1 {| weights := ws; styles := sts; subsets := wanted |}
                                                   (splitCssIntoSubsets css1)),
                                 afterRequests w
                                   [ css2Request fontFamily axes variants text (agentOf 0);
                                     css2Request fontFamily axes variants text (agentOf 1) ])
                            end
                        end
                    end
              end).
  { intros wanted.
    rewrite (getFontDetails_run fontFamily
               {| weights := ws; styles := sts; subsets := wanted |} font w Hf).
    reflexivity. }
  assert (Hshape : forall wanted groups0 groups1 recs,
            recs = flavorFaces 0 {| weights := ws; styles := sts; subsets := wanted |} groups0
                   ++ flavorFaces 1 {| weights := ws; styles := sts; subsets := wanted |} groups1 ->
            recs = flavorFaces 0 {| weights := ws; styles := sts; subsets := wanted |} groups0
                   ++ flavorFaces 1 {| weights := ws; styles := sts; subsets := wanted |} groups1
            /\ Forall (fun f => priorityOf f = Some 0)
                      (flavorFaces 0 {| weights := ws; styles := sts; subsets := wanted |} groups0)
            /\ Forall (fun f => priorityOf f = Some 1)
                      (flavorFaces 1 {| weights := ws; styles := sts; subsets := wanted |} groups1)
            /\ exists ps, map priorityOf recs = map Some ps /\ nondecreasing ps = true).
  { intros wanted groups0 groups1 recs ->.
    pose proof (flavorFaces_priority 0 {| weights := ws; styles := sts; subsets := wanted |}
                  groups0) as H0.
    pose proof (flavorFaces_priority 1 {| weights := ws; styles := sts; subsets := wanted |}
                  groups1) as H1.
    repeat split; auto.
    destruct (priorities_nondecreasing _ _ H0 H1) as [Hm Hn].
    eexists. split; [exact Hm | exact Hn]. }
  destruct (glyphsText fontFamily) as [text|] eqn:Eg.
  2:{ exists [], []. split.
      - intros wanted options recs w' H. subst options. rewrite Hrun in H. discriminate H.
      - intros text' axes variants css0 css1 Hg. discriminate Hg. }
  destruct ((List.length wts =? 0)%nat || (List.length (styleCodes sts) =? 0)%nat) eqn:Egd.
  { exists [], []. split.
    - intros wanted options recs w' H. subst options. rewrite Hrun in H.
      injection H as <- _. now apply Hshape.
    - intros text' axes variants css0 css1 _ Hw Hs. exfalso.
      apply orb_true_iff in Egd. destruct Egd as [E|E]; apply Nat.eqb_eq in E.
      + destruct wts; [congruence | discriminate E].
      + destruct (styleCodes sts); [congruence | discriminate E]. }
  destruct (resolveAxes wts (styleCodes sts) (familyAxes fontFamily))
    as [[axes variants]|] eqn:Er.
  2:{ exists [], []. split.
      - intros wanted options recs w' H. subst options. rewrite Hrun in H. discriminate H.
      - intros text' axes variants css0 css1 _ _ _ Hr. discriminate Hr. }
  destruct (upstream (css2Request fontFamily axes variants text (agentOf 0)))
    as [css0|] eqn:E0.
  2:{ exists [], []. split.
      - intros wanted options recs w' H. subst options. rewrite Hrun in H. discriminate H.
      - intros text' axes' variants' css0 css1 Hg _ _ Hr H0.
        injection Hg as <-. injection Hr as <- <-. congruence. }
  destruct (upstream (css2Request fontFamily axes variants text (agentOf 1)))
    as [css1|] eqn:E1.
  2:{ exists [], []. split.
      - intros wanted options recs w' H. subst options. rewrite Hrun in H. discriminate H.
      - intros text' axes' variants' css0' css1 Hg _ _ Hr _ H1.
        injection Hg as <-. injection Hr as <- <-. congruence. }
  exists (splitCssIntoSubsets css0), (splitCssIntoSubsets css1). split.
  - intros wanted options recs w' H. subst options. rewrite Hrun in H.
    injection H as <- _. now apply Hshape.
  - intros text' axes' variants' css0' css1' Hg _ _ Hr H0 H1.
    injection Hg as <-. injection Hr as <- <-.
    rewrite E0 in H0. rewrite E1 in H1. injection H0 as <-. injection H1 as <-.
    split; [reflexivity|]. split; [reflexivity|].
    intros wanted. eexists. apply Hrun.
Qed.

(** ** Further properties of the partitioner *)

Lemma trimStart_clean (s : string) :
  match trimStart s with
  | EmptyString => True
  | String c _ => isWhiteSpace c = false
  end.
Proof.
  induction s as [|c r IH]; simpl; [exact I|].
  destruct (isWhiteSpace c) eqn:E; [exact IH | exact E].
Qed.

Lemma trimStart_fixed (s : string) :
  match s with
  | EmptyString => True
  | String c _ => isWhiteSpace c = false
  end ->
  trimStart s = s.
Proof.
  destruct s as [|c r]; simpl; [reflexivity|]. now intros ->.
Qed.

Lemma trimEnd_head (s : string) :
  match s with
  | EmptyString => True
  | String c _ => isWhiteSpace c = false
  end ->
  match trimEnd s with
  | EmptyString => True
  | String c _ => isWhiteSpace c = false
  end.
Proof.
  destruct s as [|c r]; simpl; [auto|]. intros H.
  destruct (trimEnd r); [rewrite H|]; exact H.
Qed.

Lemma trimEnd_cons (c : ascii) (r : string) :
  trimEnd (String c r)
  = match trimEnd r with
    | EmptyString => if isWhiteSpace c then EmptyString else String c EmptyString
    | String d r' => String c (String d r')
    end.
Proof. reflexivity. Qed.

Lemma trimEnd_idempotent (s : string) : trimEnd (trimEnd s) = trimEnd s.
Proof.
  induction s as [|c r IH]; [reflexivity|].
  rewrite (trimEnd_cons c r). destruct (trimEnd r) as [|d r'] eqn:E.
  - destruct (isWhiteSpace c) eqn:Ec; [reflexivity|].
    rewrite trimEnd_cons. simpl. now rewrite Ec.
  - rewrite (trimEnd_cons c (String d r')), IH. reflexivity.
Qed.

Lemma trim_idempotent (s : string) : trim (trim s) = trim s.
Proof.
  unfold trim.
  rewrite (trimStart_fixed (trimEnd (trimStart s))).
  - apply trimEnd_idempotent.
  - apply trimEnd_head, trimStart_clean.
Qed.

Lemma flat_map_ext_in {A B : Type} (f g : A -> list B) (l : list A) :
  (forall a, In a l -> f a = g a) -> flat_map f l = flat_map g l.
Proof.
  intros H. rewrite !flat_map_concat_map. f_equal. now apply map_ext_in.
Qed.

Lemma precedingComment_all (comments : list Comment) (node : FontFaceNode) :
  (forall c, In c comments -> endLine c < startLine node) ->
  precedingComment comments node = atLast comments.
Proof.
  intros H. unfold precedingComment. f_equal.
  induction comments as [|c r IH]; [reflexivity|].
  cbn [filter].
  replace (endLine c <? startLine node) with true
    by (symmetry; apply Z.ltb_lt, H; now left).
  f_equal. apply IH. intros c' Hc'. apply H. now right.
Qed.

Lemma precedingComment_later (comments extra : list Comment) (node : FontFaceNode) :
  (forall c, In c extra -> startLine node <= endLine c) ->
  precedingComment (comments ++ extra) node = precedingComment comments node.
Proof.
  intros H. unfold precedingComment. rewrite filter_app.
  replace (filter (fun comment => endLine comment <? startLine node) extra) with (@nil Comment).
  - now rewrite app_nil_r.
  - symmetry. induction extra as [|c r IH]; [reflexivity|].
    cbn [filter].
    replace (endLine c <? startLine node) with false
      by (symmetry; apply Z.ltb_ge, H; now left).
    apply IH. intros c' Hc'. apply H. now right.
Qed.

(** X1. When every comment of the input ends before every font-face rule
    starts, each rule is emitted, in document order, under the trimmed text
    of the last comment reported. *)
Theorem rules_after_all_comments (input : string) (last : Comment) :
  atLast (reported (parse input)) = Some last ->
  (forall c node, In c (reported (parse input)) ->
                  In node (fontFaceNodes (parse input)) ->
                  endLine c < startLine node) ->
  splitCssIntoSubsets input
  = map (fun node => {| subset := Some (trim (value last)); css := generated node |})
        (fontFaceNodes (parse input)).
Proof.
  intros Hlast Hall.
  assert (Hne : reported (parse input) <> []).
  { intros E. rewrite E in Hlast. discriminate. }
  rewrite (splitCssIntoSubsets_with_comments input Hne).
  rewrite flat_map_concat_map.
  rewrite (map_ext_in _ (fun node => [ {| subset := Some (trim (value last));
                                         css := generated node |} ])).
  - induction (fontFaceNodes (parse input)) as [|n r IH]; simpl; [reflexivity|].
    f_equal. apply IH. intros c node Hc Hn. apply Hall; [exact Hc | now right].
  - intros node Hn.
    rewrite precedingComment_all, Hlast; [reflexivity|].
    intros c Hc. now apply Hall.
Qed.

(** X2. Comments reported after the others and ending on or after the start
    line of every font-face rule never label a rule.  When the document has
    an earlier comment, the output is that of the document without them; when
    they are its only comments, every rule is dropped and the output is
    empty. *)
Theorem trailing_comments_ignored (input input' : string) (extra : list Comment) :
  reported (parse input') = reported (parse input) ++ extra ->
  fontFaceNodes (parse input') = fontFaceNodes (parse input) ->
  (forall c node, In c extra -> In node (fontFaceNodes (parse input)) ->
                  startLine node <= endLine c) ->
  (reported (parse input) <> [] ->
   splitCssIntoSubsets input' = splitCssIntoSubsets input)
  /\ (reported (parse input) = [] -> extra <> [] ->
      splitCssIntoSubsets input' = []).
Proof.
  intros Hc Hn Hlate. split.
  - intros Hne.
    assert (Hne' : reported (parse input') <> []).
    { rewrite Hc. intros E. apply app_eq_nil in E. destruct E as [E _]. contradiction. }
    rewrite (splitCssIntoSubsets_with_comments input Hne).
    rewrite (splitCssIntoSubsets_with_comments input' Hne').
    rewrite Hc, Hn. apply flat_map_ext_in. intros node Hnode.
    rewrite precedingComment_later; [reflexivity|].
    intros c Hin. now apply Hlate.
  - intros He Hx. rewrite He in Hc. simpl in Hc.
    assert (Hne' : reported (parse input') <> []) by (now rewrite Hc).
    rewrite (splitCssIntoSubsets_with_comments input' Hne'), Hc, Hn.
    revert Hlate. generalize (fontFaceNodes (parse input)).
    intros nodes. induction nodes as [|node nodes IH]; intros Hlate; [reflexivity|].
    cbn [flat_map].
    change (precedingComment extra node) with (precedingComment ([] ++ extra) node).
    rewrite (precedingComment_later [] extra node)
      by (intros c Hin; apply Hlate; [exact Hin | now left]).
    simpl. apply IH. intros c n Hin Hnode. apply Hlate; [exact Hin | now right].
Qed.

(** X3. Every label the partitioner emits is already trimmed: trimming it
    again changes nothing. *)
Theorem labels_are_trimmed (input : string) (group : SubsetGroup) (label : string) :
  In group (splitCssIntoSubsets input) ->
  subset group = Some label ->
  trim label = label.
Proof.
  intros Hin Hl.
  destruct (reported (parse input)) as [|c0 cs] eqn:E.
  - unfold splitCssIntoSubsets in Hin. rewrite E in Hin. simpl in Hin.
    destruct Hin as [<-|[]]. discriminate Hl.
  - assert (Hne : reported (parse input) <> []) by (rewrite E; discriminate).
    rewrite (splitCssIntoSubsets_with_comments input Hne) in Hin.
    apply in_flat_map in Hin. destruct Hin as [node [_ Hin]].
    destruct (precedingComment (reported (parse input)) node) as [c|]; [|contradiction].
    destruct Hin as [<-|[]]. simpl in Hl. injection Hl as <-.
    apply trim_idempotent.
Qed.

(** ** Further properties of the comparator *)

Lemma isLowercase_not_upper (a : string) : isLowercase a = negb (uppercaseLed a).
Proof.
  destruct a as [|c r]; [reflexivity|].
  unfold uppercaseLed, isLowercase, charAt0, toLowerCase.
  destruct c as [[] [] [] [] [] [] [] []]; reflexivity.
Qed.

(** X4. The comparator's two classes are "first code unit is an upper-case
    letter" and everything else, so an empty name or a name led by a digit
    or a sign goes with the lower-case names: it is put before every
    upper-case-led name, and two names of one class are left to
    [localeCompare]. *)
Theorem googleFlavoredSorting_classes (a b : string) :
  isLowercase a = negb (uppercaseLed a)
  /\ (uppercaseLed a = false -> uppercaseLed b = true ->
      googleFlavoredSorting a b = -1 /\ googleFlavoredSorting b a = 1)
  /\ (uppercaseLed a = uppercaseLed b ->
      googleFlavoredSorting a b = localeCompare a b).
Proof.
  split; [apply isLowercase_not_upper|]. unfold googleFlavoredSorting.
  rewrite !isLowercase_not_upper. split.
  - intros -> ->. split; reflexivity.
  - intros ->. destruct (uppercaseLed b); reflexivity.
Qed.

(** ** Further properties of the axis resolver *)

Lemma insertBy_perm {A : Type} (cmp : A -> A -> Z) (x : A) (l : list A) :
  Permutation (insertBy cmp x l) (x :: l).
Proof.
  induction l as [|y r IH]; simpl; [apply Permutation_refl|].
  destruct (cmp x y <=? 0); [apply Permutation_refl|].
  eapply perm_trans; [apply perm_skip, IH | apply perm_swap].
Qed.

Lemma sortBy_perm {A : Type} (cmp : A -> A -> Z) (l : list A) :
  Permutation (sortBy cmp l) l.
Proof.
  induction l as [|x r IH]; simpl; [constructor|].
  eapply perm_trans; [apply insertBy_perm | apply perm_skip, IH].
Qed.

Lemma insertBy_case_split (x : string) (lows ups : list string) :
  Forall (fun a => isLowercase a = true) lows ->
  Forall (fun a => isLowercase a = false) ups ->
  exists lows' ups',
    insertBy googleFlavoredSorting x (lows ++ ups) = lows' ++ ups'
    /\ Forall (fun a => isLowercase a = true) lows'
    /\ Forall (fun a => isLowercase a = false) ups'.
Proof.
  intros Hl Hu. induction lows as [|y l0 IH].
  - destruct (isLowercase x) eqn:Ex.
    + exists [x], ups. repeat split; auto.
      destruct ups as [|u r]; [reflexivity|].
      inversion Hu as [|? ? Hu0 _]; subst.
      cbn [app insertBy]. unfold googleFlavoredSorting. rewrite Ex, Hu0. reflexivity.
    + exists [], (insertBy googleFlavoredSorting x ups). repeat split; auto.
      apply Forall_forall. intros a Ha. apply insertBy_In in Ha.
      destruct Ha as [->|Ha]; [exact Ex|].
      rewrite Forall_forall in Hu. now apply Hu.
  - inversion Hl as [|? ? Hy Hl0]; subst.
    destruct (IH Hl0) as [lows' [ups' [He [Hl' Hu']]]].
    cbn [app insertBy].
    destruct (googleFlavoredSorting x y <=? 0) eqn:Ec.
    + exists (x :: y :: l0), ups. repeat split; auto.
      constructor; [|exact Hl].
      destruct (isLowercase x) eqn:Ex; [reflexivity|].
      unfold googleFlavoredSorting in Ec. rewrite Ex, Hy in Ec. discriminate Ec.
    + exists (y :: lows'), ups'. rewrite He. repeat split; auto.
Qed.

Lemma sortBy_case_split (l : list string) :
  exists lows ups,
    sortBy googleFlavoredSorting l = lows ++ ups
    /\ Forall (fun a => isLowercase a = true) lows
    /\ Forall (fun a => isLowercase a = false) ups.
Proof.
  induction l as [|x r IH]; simpl.
  - exists [], []. repeat split; constructor.
  - destruct IH as [lows [ups [-> [Hl Hu]]]]. now apply insertBy_case_split.
Qed.

(** X5. Whatever the collation, the active axes are a rearrangement of
    "wght", "ital" and the keys of the family's axis map in which every name
    that does not start with an upper-case letter comes before every name that
    does; "wght" and "ital" are in the front part. *)
Theorem activeAxes_lowercase_first (overrides : list (string * list AxisEntry)) :
  Permutation (activeAxes overrides) ("wght" :: "ital" :: keys overrides)
  /\ exists lows ups,
       activeAxes overrides = lows ++ ups
       /\ Forall (fun a => uppercaseLed a = false) lows
       /\ Forall (fun a => uppercaseLed a = true) ups
       /\ In "wght" lows /\ In "ital" lows.
Proof.
  split; [apply sortBy_perm|].
  destruct (sortBy_case_split ("wght" :: "ital" :: keys overrides))
    as [lows [ups [He [Hl Hu]]]].
  assert (Hu' : Forall (fun a => uppercaseLed a = true) ups).
  { eapply Forall_impl; [|exact Hu]. intros a Ha. simpl in Ha.
    rewrite isLowercase_not_upper in Ha. now destruct (uppercaseLed a). }
  assert (Hin : forall k, uppercaseLed k = false -> In k (activeAxes overrides) -> In k lows).
  { intros k Hk Hi. unfold activeAxes in Hi. rewrite He in Hi.
    apply in_app_or in Hi. destruct Hi as [Hi|Hi]; [exact Hi|].
    rewrite Forall_forall in Hu'. rewrite (Hu' k Hi) in Hk. discriminate Hk. }
  exists lows, ups. repeat split.
  - exact He.
  - eapply Forall_impl; [|exact Hl]. intros a Ha. simpl in Ha.
    rewrite isLowercase_not_upper in Ha. now destruct (uppercaseLed a).
  - exact Hu'.
  - apply Hin; [reflexivity|]. apply activeAxes_In. auto.
  - apply Hin; [reflexivity|]. apply activeAxes_In. auto.
Qed.

Lemma lookup_other_key {A : Type} (axis k : string) (vs vs' : A)
    (m1 m2 : list (string * A)) :
  k <> axis ->
  lookup axis (m1 ++ (k, vs) :: m2) = lookup axis (m1 ++ (k, vs') :: m2).
Proof.
  intros Hne. induction m1 as [|[k1 v1] r IH]; simpl.
  - destruct (String.eqb_spec k axis); [contradiction | reflexivity].
  - now rewrite IH.
Qed.

Lemma resolveLoop_ext (wts : list PreparedWeight) (sts : list string)
    (ov ov' : list (string * list AxisEntry)) (axes : list string) :
  (forall axis, axisValueOf wts sts ov axis = axisValueOf wts sts ov' axis) ->
  forall resolvedAxes resolvedVariants,
    resolveLoop wts sts ov axes resolvedAxes resolvedVariants
    = resolveLoop wts sts ov' axes resolvedAxes resolvedVariants.
Proof.
  intros H. induction axes as [|axis rest IH]; intros done rv; simpl; [reflexivity|].
  rewrite H. destruct (axisValueOf wts sts ov' axis) as [av|]; [|reflexivity].
  destruct (foldAxis rv av); [apply IH | reflexivity].
Qed.

(** X6. An entry of the family's axis map under the key "wght" or "ital"
    never supplies values: whatever list it holds, the axes and variants are
    the same.  The key still counts as an axis of its own, so the name occurs
    at least twice in the axis order. *)
Theorem canonical_axes_keep_their_values (wts : list PreparedWeight) (sts : list string)
    (k : string) (vs vs' : list AxisEntry) (ov1 ov2 : list (string * list AxisEntry)) :
  k = "wght" \/ k = "ital" ->
  resolveAxes wts sts (ov1 ++ (k, vs) :: ov2) = resolveAxes wts sts (ov1 ++ (k, vs') :: ov2)
  /\ (2 <= count_occ string_dec (activeAxes (ov1 ++ (k, vs) :: ov2)) k)%nat.
Proof.
  intros Hk. split.
  - unfold resolveAxes, activeAxes, keys. rewrite !map_app. cbn [map fst].
    rewrite (resolveLoop_ext wts sts (ov1 ++ (k, vs) :: ov2) (ov1 ++ (k, vs') :: ov2));
      [reflexivity|].
    intros axis. unfold axisValueOf.
    destruct (axis =? "wght")%string eqn:Ew; [reflexivity|].
    destruct (axis =? "ital")%string eqn:Ei; [reflexivity|].
    rewrite (lookup_other_key axis k vs vs'); [reflexivity|].
    intros ->. destruct Hk as [->| ->]; [discriminate Ew | discriminate Ei].
  - assert (Hp := sortBy_perm googleFlavoredSorting ("wght" :: "ital" :: keys (ov1 ++ (k, vs) :: ov2))).
    rewrite (Permutation_count_occ string_dec) in Hp.
    unfold activeAxes. rewrite (Hp k). unfold keys. rewrite map_app. cbn [map fst].
    assert (Hc : (1 <= count_occ string_dec (map fst ov1 ++ k :: map fst ov2) k)%nat).
    { rewrite count_occ_app, count_occ_cons_eq by reflexivity. lia. }
    destruct Hk as [->| ->]; simpl in *.
    + destruct (string_dec "wght" "wght"); [|congruence].
      destruct (string_dec "ital" "wght"); [discriminate|]. lia.
    + destruct (string_dec "wght" "ital"); [discriminate|].
      destruct (string_dec "ital" "ital"); [|congruence]. lia.
Qed.

Lemma covered_first (values : list string) :
  values <> [] -> covered [values] values.
Proof.
  intros _ tokens HF.
  inversion HF as [|t vs ts vss Ht HF']; subst. inversion HF'; subst. exact Ht.
Qed.

Lemma covered_next (vals : list (list string)) (variants values : list string) :
  folded vals variants -> covered vals variants -> values <> [] ->
  covered (vals ++ [values]) (crossJoin variants values).
Proof.
  intros [Hv [Hne _]] Hc _ tokens HF. unfold crossJoin.
  apply Forall2_app_inv_r in HF. destruct HF as [ts [last [H1 [H2 ->]]]].
  inversion H2 as [|o vs l0 l1 Ho H3]; subst. inversion H3; subst.
  unfold sortStrings. apply sortBy_In, in_flat_map.
  exists (join "," ts). split; [now apply Hc|].
  apply in_map_iff. exists o. split; [|exact Ho].
  rewrite join_snoc; [reflexivity|].
  intros ->. inversion H1; subst. congruence.
Qed.

Lemma compareCodeUnits_leb (a b : string) :
  (compareCodeUnits a b <=? 0) = (a <=? b)%string.
Proof.
  unfold compareCodeUnits, String.leb. destruct (String.compare a b); reflexivity.
Qed.

Lemma insertBy_ascending (x : string) (l : list string) :
  ascending l -> ascending (insertBy compareCodeUnits x l).
Proof.
  unfold ascending. induction l as [|y r IH]; intros Hs; simpl.
  - repeat constructor.
  - rewrite compareCodeUnits_leb. destruct (x <=? y)%string eqn:E.
    + constructor; [exact Hs | constructor; exact E].
    + inversion Hs as [|? ? Hr Hh]; subst.
      assert (Hyx : (y <=? x)%string = true).
      { destruct (String.leb_total x y) as [H|H]; [congruence | exact H]. }
      constructor; [now apply IH|].
      destruct r as [|z r']; simpl; [constructor; exact Hyx|].
      destruct (compareCodeUnits x z <=? 0); constructor; [exact Hyx|].
      now inversion Hh.
Qed.

Lemma sortStrings_ascending (l : list string) : ascending (sortStrings l).
Proof.
  unfold sortStrings. induction l as [|x r IH]; simpl.
  - constructor.
  - now apply insertBy_ascending.
Qed.

(** X7. When no key of the family's axis map is the name of a member
    inherited from Object.prototype, and the weight list, the style list and
    every list of the map are non-empty, no combination is missing: for every
    choice of one token per active axis, in axis order, the comma-join of the
    choice is one of the variants. *)
Theorem resolveAxes_complete (wts : list PreparedWeight) (sts : list string)
    (overrides : list (string * list AxisEntry)) :
  wts <> [] -> sts <> [] ->
  (forall axis vs, In (axis, vs) overrides -> inheritedName axis = false /\ vs <> []) ->
  exists vals variants,
    resolveAxes wts sts overrides = Returned (activeAxes overrides, variants)
    /\ valueLists wts sts overrides (activeAxes overrides) vals
    /\ forall tokens,
         Forall2 (fun token values => In token values) tokens vals ->
         In (join "," tokens) variants.
Proof.
  intros Hw Hs Ho.
  destruct (resolveLoop_invariant covered wts sts overrides covered_first covered_next
              (activeAxes overrides)
              (fun axis H => axisValueOf_nonempty wts sts overrides axis Hw Hs Ho H)
              [] [] [] (Forall2_nil _) (or_introl (conj eq_refl eq_refl))
              (activeAxes_not_nil overrides))
    as [vals [variants [H1 [H2 [_ H3]]]]].
  exists vals, variants. simpl in H1, H2.
  split; [now apply resolveAxes_of_loop|]. auto.
Qed.

(** X8. Under the same conditions the variants come out in ascending
    code-unit order, whatever the order of the requested weights, styles and
    axis values. *)
Theorem resolveAxes_ascending (wts : list PreparedWeight) (sts : list string)
    (overrides : list (string * list AxisEntry)) :
  wts <> [] -> sts <> [] ->
  (forall axis vs, In (axis, vs) overrides -> inheritedName axis = false /\ vs <> []) ->
  exists variants,
    resolveAxes wts sts overrides = Returned (activeAxes overrides, variants)
    /\ ascending variants.
Proof.
  intros Hw Hs Ho.
  destruct (resolveLoop_invariant
              (fun vals variants => (2 <= List.length vals)%nat -> ascending variants)
              wts sts overrides) with (axes := activeAxes overrides)
              (done := @nil string) (dvals := @nil (list string)) (variants := @nil string)
    as [vals [variants [H1 [H2 [_ H3]]]]].
  - intros values _ Hlen. simpl in Hlen. lia.
  - intros vals variants values _ _ _ _. apply sortStrings_ascending.
  - intros axis H. now apply axisValueOf_nonempty.
  - constructor.
  - left. split; reflexivity.
  - apply activeAxes_not_nil.
  - exists variants. simpl in H1, H2. split; [now apply resolveAxes_of_loop|].
    apply H3. rewrite <- (Forall2_length H2).
    unfold activeAxes. rewrite sortBy_length. simpl. lia.
Qed.

Lemma foldAxis_into_inherited (resolvedVariants next : AxisValue) (arity : option Z) :
  foldAxis resolvedVariants (Inherited arity) = Returned next -> next = Inherited arity.
Proof.
  unfold foldAxis.
  destruct (lengthOf resolvedVariants) as [[|q|q]|]; destruct resolvedVariants;
    intros H; congruence.
Qed.

Lemma resolveLoop_after_inherited (wts : list PreparedWeight) (sts : list string)
    (overrides : list (string * list AxisEntry)) (axis : string) (rest done : list string)
    (arity : option Z) :
  arity <> Some 0 ->
  resolveLoop wts sts overrides (axis :: rest) done (Inherited arity) = Thrown.
Proof.
  intros Ha. cbn [resolveLoop].
  destruct (axisValueOf wts sts overrides axis) as [av|]; [|reflexivity].
  unfold foldAxis, lengthOf. destruct arity as [[|q|q]|]; congruence.
Qed.

Lemma resolveLoop_inherited (wts : list PreparedWeight) (sts : list string)
    (overrides : list (string * list AxisEntry)) (k : string) (arity : option Z)
    (axes : list string) :
  In k axes ->
  axisValueOf wts sts overrides k = Returned (Inherited arity) ->
  arity <> Some 0 ->
  forall done rv axes' variants,
    resolveLoop wts sts overrides axes done rv <> Returned (axes', Strings variants).
Proof.
  intros Hin Hk Ha.
  induction axes as [|axis rest IH]; [contradiction|].
  intros done rv axes' variants. cbn [resolveLoop].
  destruct Hin as [->|Hin].
  - rewrite Hk. destruct (foldAxis rv (Inherited arity)) as [next|] eqn:Ef; [|discriminate].
    apply foldAxis_into_inherited in Ef. subst next.
    destruct rest as [|axis2 rest2]; [cbn [resolveLoop]; congruence|].
    rewrite (resolveLoop_after_inherited wts sts overrides axis2 rest2 _ arity Ha).
    discriminate.
  - destruct (axisValueOf wts sts overrides axis) as [av|]; [|discriminate].
    destruct (foldAxis rv av) as [next|]; [|discriminate].
    now apply IH.
Qed.

(** X16. A key of the family's axis map that names a member inherited from
    Object.prototype whose length is not 0 (constructor, hasOwnProperty,
    isPrototypeOf, __proto__, ...) makes the axis resolution throw, whatever
    the weights, the styles, the other axes and the collation: the inherited
    member is taken instead of the list under the key. *)
Theorem inherited_axis_name_throws (wts : list PreparedWeight) (sts : list string)
    (overrides : list (string * list AxisEntry)) (k : string) (arity : option Z) :
  In k (keys overrides) ->
  lookup k objectPrototype = Some arity ->
  arity <> Some 0 ->
  resolveAxes wts sts overrides = Thrown.
Proof.
  intros Hin Hp Ha.
  assert (Hk : axisValueOf wts sts overrides k = Returned (Inherited arity)).
  { unfold axisValueOf.
    destruct (String.eqb_spec k "wght") as [->|_]; [discriminate Hp|].
    destruct (String.eqb_spec k "ital") as [->|_]; [discriminate Hp|].
    now rewrite Hp. }
  assert (Hact : In k (activeAxes overrides)) by (apply activeAxes_In; auto).
  unfold resolveAxes.
  destruct (resolveLoop wts sts overrides (activeAxes overrides) [] (Strings []))
    as [[axes' [variants|a]]|] eqn:E; [|reflexivity|reflexivity].
  exfalso.
  exact (resolveLoop_inherited wts sts overrides k arity (activeAxes overrides)
           Hact Hk Ha [] (Strings []) axes' variants E).
Qed.

(** ** Further properties of the style codes and the weights *)

Lemma hasNormal_In (l : list Style) :
  hasNormal l = true <-> In "0" (map styleMap l).
Proof.
  unfold hasNormal. rewrite existsb_exists, in_map_iff. split.
  - intros [i [Hi Hn]]. exists i. destruct i; try discriminate Hn. auto.
  - intros [i [Hm Hi]]. exists i. destruct i; try discriminate Hm. auto.
Qed.

Lemma hasSlanted_In (l : list Style) :
  hasSlanted l = true <-> In "1" (map styleMap l).
Proof.
  unfold hasSlanted. rewrite existsb_exists, in_map_iff. split.
  - intros [i [Hi Hn]]. exists i. destruct i; try discriminate Hn; auto.
  - intros [i [Hm Hi]]. exists i. destruct i; try discriminate Hm; auto.
Qed.

(** X9. The style codes are the requested codes as a set: each code a
    requested style maps to occurs exactly once, in ascending order, and the
    list is empty only when no style is requested. *)
Theorem styleCodes_set (l : list Style) :
  (forall c, In c (styleCodes l) <-> In c (map styleMap l))
  /\ NoDup (styleCodes l)
  /\ ascending (styleCodes l)
  /\ (styleCodes l = [] <-> l = []).
Proof.
  rewrite styleCodes_summary.
  pose proof (hasNormal_In l) as Hn. pose proof (hasSlanted_In l) as Hs.
  assert (Hcodes : forall c, In c (map styleMap l) -> c = "0" \/ c = "1").
  { intros c Hc. apply in_map_iff in Hc. destruct Hc as [i [<- _]]. destruct i; auto. }
  split; [|split; [|split]].
  - intros c. split.
    + destruct (hasNormal l), (hasSlanted l); simpl; intros H;
        repeat (destruct H as [<-|H]; [intuition congruence|]); contradiction.
    + intros Hc. destruct (Hcodes c Hc) as [-> | ->].
      * apply Hn in Hc. rewrite Hc. left. reflexivity.
      * apply Hs in Hc. rewrite Hc. apply in_or_app. right. left. reflexivity.
  - destruct (hasNormal l), (hasSlanted l); simpl; repeat constructor; simpl;
      intuition discriminate.
  - unfold ascending.
    destruct (hasNormal l), (hasSlanted l); simpl; repeat constructor.
  - split.
    + intros He. destruct l as [|i r]; [reflexivity|]. exfalso.
      destruct i.
      * assert (H : hasSlanted (italic :: r) = true) by reflexivity.
        rewrite H in He. destruct (hasNormal (italic :: r)); discriminate He.
      * assert (H : hasSlanted (oblique :: r) = true) by reflexivity.
        rewrite H in He. destruct (hasNormal (oblique :: r)); discriminate He.
      * assert (H : hasNormal (normal :: r) = true) by reflexivity.
        rewrite H in He. discriminate He.
    + intros ->. reflexivity.
Qed.

(** X10. Two style lists that map to the same codes, in any order and with
    any repetition, yield the same style codes. *)
Theorem styleCodes_canonical (l l' : list Style) :
  (forall c, In c (map styleMap l) <-> In c (map styleMap l')) ->
  styleCodes l = styleCodes l'.
Proof.
  intros H. rewrite !styleCodes_summary.
  assert (Hn : hasNormal l = hasNormal l').
  { apply eq_true_iff_eq. rewrite !hasNormal_In. apply H. }
  assert (Hs : hasSlanted l = hasSlanted l').
  { apply eq_true_iff_eq. rewrite !hasSlanted_In. apply H. }
  now rewrite Hn, Hs.
Qed.

Lemma replaceSpace_first (lo hi : string) :
  hasSpace lo = false ->
  replaceSpace (lo ++ " " ++ hi) = (lo ++ ".." ++ hi)%string.
Proof.
  induction lo as [|c r IH]; intros Hlo; [reflexivity|].
  simpl in Hlo. apply orb_false_iff in Hlo. destruct Hlo as [Hc Hr].
  simpl. rewrite Hc. f_equal. now apply IH.
Qed.

Lemma replaceSpace_none (s : string) :
  hasSpace s = false -> replaceSpace s = s.
Proof.
  induction s as [|c r IH]; intros Hs; [reflexivity|].
  simpl in Hs. apply orb_false_iff in Hs. destruct Hs as [Hc Hr].
  simpl. rewrite Hc. f_equal. now apply IH.
Qed.

(** X11. The weights keep their number and order of preparation.  A fixed
    weight is passed on as it is; a variable weight prepared as "lo hi", with
    no space inside "lo", is passed on as "lo..hi": only the first space is
    replaced. *)
Theorem resolvedWeights_ranges (font : FontIndexMeta) (options : ResolveFontOptions) :
  let prepared :=
    prepareWeights (weights options)
                   (existsb (fun a => (a =? "wght")%string) (axisTags font))
                   (fontKeys font) in
  List.length (resolvedWeights font options) = List.length prepared
  /\ (forall v, In v prepared -> variable v = false ->
                In v (resolvedWeights font options))
  /\ (forall lo hi, hasSpace lo = false ->
                    In {| weight := (lo ++ " " ++ hi)%string; variable := true |} prepared ->
                    In {| weight := (lo ++ ".." ++ hi)%string; variable := true |}
                       (resolvedWeights font options)).
Proof.
  intros prepared. unfold resolvedWeights. fold prepared.
  split; [apply length_map|]. split.
  - intros v Hv Hf. apply in_map_iff. exists v. rewrite Hf. auto.
  - intros lo hi Hlo Hv. apply in_map_iff.
    exists {| weight := (lo ++ " " ++ hi)%string; variable := true |}.
    split; [|exact Hv]. cbn [variable weight].
    now rewrite (replaceSpace_first lo hi Hlo).
Qed.

(** ** Further properties of the orchestrator *)

(** X12. When the fetched text has no comment, the subset filter removes
    nothing: the flavor contributes the records extracted from the whole
    text, whatever subsets are requested. *)
Theorem uncommented_css_is_kept_whole (p : Z) (options : ResolveFontOptions)
    (rawCss : string) :
  reported (parse rawCss) = [] ->
  flavorFaces p options (splitCssIntoSubsets rawCss)
  = map (setPriority p) (extractFontFaceData rawCss).
Proof.
  intros H. unfold flavorFaces, splitCssIntoSubsets. rewrite H. simpl.
  apply app_nil_r.
Qed.

Lemma known_family (fontFamily : string) :
  existsb (fun font => (family font =? fontFamily)%string) googleFonts = true
  <-> In fontFamily listFonts.
Proof.
  unfold listFonts. rewrite existsb_exists, in_map_iff. split.
  - intros [font [Hin Heq]]. apply String.eqb_eq in Heq. eauto.
  - intros [font [Heq Hin]]. exists font. split; [exact Hin | now apply String.eqb_eq].
Qed.

Lemma known_family_find (fontFamily : string) :
  In fontFamily listFonts <->
  exists font, find (fun font => (family font =? fontFamily)%string) googleFonts = Some font.
Proof.
  rewrite <- known_family. split.
  - intros H. apply existsb_exists in H. destruct H as [font [Hin Heq]].
    destruct (find (fun font => (family font =? fontFamily)%string) googleFonts) eqn:E;
      [eauto|].
    rewrite (find_none _ _ E font Hin) in Heq. discriminate Heq.
  - intros [font H]. apply find_some in H. apply existsb_exists. eauto.
Qed.

(** X13. [getFontDetails] on a family that is not in the index throws before
    any request.  On a listed family it leaves the storage alone and sends at
    most two requests, the woff2 agent first and the ttf agent second, both
    with the same family query and text, stopping at the first fetch that
    fails: after a failed woff2 fetch no ttf request is sent and the call
    throws; with both sent it throws exactly when the ttf fetch fails.
    Without any request it throws or returns no record. *)
Theorem getFontDetails_requests (fontFamily : string) (options : ResolveFontOptions)
    (w : World Store) :
  (~ In fontFamily listFonts -> getFontDetails fontFamily options w = (Thrown, w))
  /\ (In fontFamily listFonts ->
      exists out w' sent,
        getFontDetails fontFamily options w = (out, w')
        /\ store w' = store w
        /\ requests w' = requests w ++ sent
        /\ (sent = [] -> out = Thrown \/ out = Returned [])
        /\ (sent = []
            \/ exists axes variants text,
                 (sent = [ css2Request fontFamily axes variants text (agentOf 0) ]
                  /\ upstream (css2Request fontFamily axes variants text (agentOf 0)) = Thrown
                  /\ out = Thrown)
                 \/ (sent = [ css2Request fontFamily axes variants text (agentOf 0);
                              css2Request fontFamily axes variants text (agentOf 1) ]
                     /\ (exists css0,
                           upstream (css2Request fontFamily axes variants text (agentOf 0))
                           = Returned css0)
                     /\ (out = Thrown
                         <-> upstream (css2Request fontFamily axes variants text (agentOf 1))
                             = Thrown)))).
Proof.
  split.
  - intros Hn. unfold getFontDetails.
    destruct (find (fun font => (family font =? fontFamily)%string) googleFonts)
      as [font|] eqn:Ef; [|reflexivity].
    exfalso. apply Hn. apply known_family_find. eauto.
  - intros Hin. apply known_family_find in Hin. destruct Hin as [font Hf].
    rewrite (getFontDetails_run fontFamily options font w Hf).
    assert (Hnil : requests w = requests w ++ []) by (now rewrite app_nil_r).
    destruct (glyphsText fontFamily) as [text|].
    2:{ exists Thrown, w, []. repeat split; auto. }
    destruct (_ || _).
    { exists (Returned []), w, []. repeat split; auto. }
    destruct (resolveAxes _ _ _) as [[axes variants]|].
    2:{ exists Thrown, w, []. repeat split; auto. }
    destruct (upstream (css2Request fontFamily axes variants text (agentOf 0)))
      as [css0|] eqn:E0.
    2:{ eexists. eexists. eexists. split; [reflexivity|].
        split; [reflexivity|]. split; [reflexivity|].
        split; [discriminate|].
        right. exists axes, variants, text. left. auto. }
    destruct (upstream (css2Request fontFamily axes variants text (agentOf 1)))
      as [css1|] eqn:E1;
      (eexists; eexists; eexists; split; [reflexivity|];
       split; [reflexivity|]; split; [reflexivity|];
       split; [discriminate|];
       right; exists axes, variants, text; right;
       split; [reflexivity|]; split; [eauto|]; rewrite E1; split; intros H;
       solve [discriminate H | reflexivity]).
Qed.

Lemma keepGroup_incl (o o' : ResolveFontOptions) (g : SubsetGroup) :
  incl (subsets o) (subsets o') -> keepGroup o g = true -> keepGroup o' g = true.
Proof.
  intros Hi. unfold keepGroup.
  destruct (subset g) as [[|c r]|]; auto.
  rewrite !existsb_exists. intros [x [Hx He]]. exists x. split; [now apply Hi | exact He].
Qed.

Lemma flavorFaces_incl (p : Z) (o o' : ResolveFontOptions) (groups : list SubsetGroup) :
  incl (subsets o) (subsets o') ->
  incl (flavorFaces p o groups) (flavorFaces p o' groups).
Proof.
  intros Hi f Hf. unfold flavorFaces in *.
  apply in_flat_map in Hf. destruct Hf as [g [Hg Hf]].
  apply in_flat_map. exists g. split; [|exact Hf].
  apply filter_In in Hg. destruct Hg as [Hg Hk].
  apply filter_In. split; [exact Hg | now apply (keepGroup_incl o o')].
Qed.

(** X14. The requested subsets only filter the result: two resolutions that
    differ in the requested subsets alone leave the same world behind (the
    same requests are sent) and fail alike; when they return, asking for more
    subsets never loses a record. *)
Theorem subsets_only_filter (fontFamily : string) (ws : list string) (sts : list Style)
    (wanted wanted' : list string) (w : World Store) :
  incl wanted wanted' ->
  exists w',
    (getFontDetails fontFamily {| weights := ws; styles := sts; subsets := wanted |} w
     = (Thrown, w')
     /\ getFontDetails fontFamily {| weights := ws; styles := sts; subsets := wanted' |} w
        = (Thrown, w'))
    \/ exists recs recs',
         getFontDetails fontFamily {| weights := ws; styles := sts; subsets := wanted |} w
         = (Returned recs, w')
         /\ getFontDetails fontFamily {| weights := ws; styles := sts; subsets := wanted' |} w
            = (Returned recs', w')
         /\ incl recs recs'.
Proof.
  intros Hi.
  destruct (find (fun font => (family font =? fontFamily)%string) googleFonts)
    as [font|] eqn:Hf.
  2:{ exists w. left. unfold getFontDetails. rewrite Hf. split; reflexivity. }
  rewrite (getFontDetails_run fontFamily
             {| weights := ws; styles := sts; subsets := wanted |} font w Hf).
  rewrite (getFontDetails_run fontFamily
             {| weights := ws; styles := sts; subsets := wanted' |} font w Hf).
  unfold resolvedWeights. cbn [weights styles].
  destruct (glyphsText fontFamily) as [text|].
  2:{ exists w. left. split; reflexivity. }
  destruct (_ || _).
  { exists w. right. exists [], []. repeat split. intros f []. }
  destruct (resolveAxes _ _ _) as [[axes variants]|].
  2:{ exists w. left. split; reflexivity. }
  destruct (upstream (css2Request fontFamily axes variants text (agentOf 0))) as [css0|].
  2:{ eexists. left. split; reflexivity. }
  destruct (upstream (css2Request fontFamily axes variants text (agentOf 1))) as [css1|].
  2:{ eexists. left. split; reflexivity. }
  eexists. right. eexists. eexists. split; [reflexivity|]. split; [reflexivity|].
  apply incl_app_app; apply flavorFaces_incl; exact Hi.
Qed.

(** X15. [resolveFont] answers with an absent result exactly when the family
    is not in the index: for a listed family the result is what the storage
    yields under the key of the family and the hashed options, wrapped in a
    record, or the storage's exception. *)
Theorem resolveFont_absent_iff_unknown (fontFamily : string)
    (options : ResolveFontOptions) (w : World Store) :
  (fst (resolveFont fontFamily options w) = Returned None <-> ~ In fontFamily listFonts)
  /\ (In fontFamily listFonts ->
      resolveFont fontFamily options w
      = match getItem ("google:" ++ fontFamily ++ "-" ++ hash options ++ "-data.json")%string
                      (getFontDetails fontFamily options) w with
        | (Returned fonts, w') => (Returned (Some fonts), w')
        | (Thrown, w') => (Thrown, w')
        end).
Proof.
  unfold resolveFont. rewrite <- known_family.
  destruct (existsb (fun font => (family font =? fontFamily)%string) googleFonts).
  - cbn [negb]. unfold bind, ret.
    destruct (getItem _ _ w) as [[fonts|] w']; simpl; split;
      try reflexivity; split;
      solve [discriminate | intros H; exfalso; now apply H].
  - simpl. split; [|discriminate].
    split; [intros _; discriminate | reflexivity].
Qed.

End Provider.

(** ** Runs on the sample documents *)

Example split_labelled :
  splitCssIntoSubsets sampleParse labelledCss
  = [ {| subset := Some "latin"; css := "@font-face{font-family:X;src:url(a.woff2)}" |};
      {| subset := Some "cyrillic"; css := "@font-face{font-family:X;src:url(b.woff2)}" |} ].
Proof. reflexivity. Qed.

Example split_orphan :
  splitCssIntoSubsets sampleParse orphanCss
  = [ {| subset := Some "latin"; css := "@font-face{font-family:X;src:url(a.woff2)}" |} ].
Proof. reflexivity. Qed.

Example resolveAxes_two_styles_two_weights :
  resolveAxes compareCodeUnits sampleWeights (styleCodes [normal; italic]) []
  = Returned (["ital"; "wght"], ["0,400"; "0,700"; "1,400"; "1,700"]).
Proof. reflexivity. Qed.

Example resolveAxes_uppercase_axis_last :
  resolveAxes compareCodeUnits sampleWeights ["0"]
              [("GRAD", [Literal "0"]); ("opsz", [Range "8" "12"])]
  = Returned (["ital"; "opsz"; "wght"; "GRAD"],
              ["0,8..12,400,0"; "0,8..12,700,0"]).
Proof. reflexivity. Qed.

Example resolveAxes_zero_arity_name :
  resolveAxes compareCodeUnits sampleWeights ["0"] [("toString", [Literal "1"])] = Thrown.
Proof. reflexivity. Qed.

Example getFontDetails_latin_only :
  getFontDetails compareCodeUnits sampleParse string unit sampleExtract
                 samplePrepareWeights sampleUpstream sampleProvider sampleFonts "X"
                 {| weights := ["400"]; styles := [normal]; subsets := ["latin"] |}
                 sampleWorld
  = (Returned
       [ {| face := "@font-face{font-family:X;src:url(a.woff2)}";
            meta := Some {| priority := Some 0 |} |};
         {| face := "@font-face{font-family:X;src:url(a.woff2)}";
            meta := Some {| priority := Some 1 |} |} ],
     {| requests :=
          [ {| userAgent := snd (nth 0 userAgents ("", ""));
               familyQuery := "X:ital,wght@0,400"; textQuery := None |};
            {| userAgent := snd (nth 1 userAgents ("", ""));
               familyQuery := "X:ital,wght@0,400"; textQuery := None |} ];
        store := tt |}).
Proof. reflexivity. Qed.

(** ** The claims on the sample documents *)

Local Abbreviation sampleDetails :=
  (getFontDetails compareCodeUnits sampleParse string unit sampleExtract
                  samplePrepareWeights sampleUpstream sampleProvider sampleFonts).

Local Abbreviation sampleResolveFont :=
  (resolveFont compareCodeUnits sampleParse string unit sampleExtract
               samplePrepareWeights sampleUpstream (fun _ => "0")
               (fun _ init => init) sampleProvider sampleFonts).



(** C2 on the tags "opsz" and "GRAD". *)
Lemma googleFlavoredSorting_sample :
  googleFlavoredSorting compareCodeUnits "opsz" "GRAD" = -1
  /\ googleFlavoredSorting compareCodeUnits "GRAD" "opsz" = 1.
Proof.
  apply (proj1 (googleFlavoredSorting_case_classes compareCodeUnits "opsz" "GRAD"));
    reflexivity.
Defined.

(** C3 on the sample family, keeping the latin subset. *)
Lemma priority_follows_flavor_order_sample :
  exists recs w' ps,
    sampleDetails "X" {| weights := ["400"]; styles := [normal]; subsets := ["latin"] |}
                  sampleWorld
    = (Returned recs, w')
    /\ map (priorityOf string) recs = map Some ps
    /\ nondecreasing ps = true.
Proof.
  destruct (priority_follows_flavor_order compareCodeUnits sampleParse string unit
              sampleExtract samplePrepareWeights sampleUpstream sampleProvider sampleFonts
              "X" {| family := "X"; fontKeys := ["400"; "700"]; axisTags := [] |}
              ["400"] [normal] sampleWorld eq_refl)
    as [groups0 [groups1 [H1 H2]]].
  destruct (H2 None ["ital"; "wght"] ["0,400"] labelledCss labelledCss)
    as [_ [_ Hret]]; try reflexivity; try (vm_compute; discriminate).
  destruct (Hret ["latin"]) as [w' Hr].
  destruct (H1 ["latin"] _ _ Hr) as [_ [_ [_ [ps [Hm Hn]]]]].
  eexists. exists w', ps. split; [exact Hr|]. split; [exact Hm | exact Hn].
Defined.

(** C4 as stated fails on a document without comments and without font-face
    rules: every rule (there is none) has its unique nearest comment, yet the
    partitioner returns one fragment, not zero. *)
Lemma partition_count_fails_without_comments :
  (forall node, In node (fontFaceNodes (sampleParse plainCss)) ->
                uniquelyAttributable (reported (sampleParse plainCss)) node)
  /\ splitCssIntoSubsets sampleParse plainCss = [ {| subset := None; css := plainCss |} ]
  /\ List.length (splitCssIntoSubsets sampleParse plainCss)
     <> List.length (fontFaceNodes (sampleParse plainCss)).
Proof.
  split; [intros node []|]. split; [reflexivity | discriminate].
Defined.

(** C4, amended, on the document with two labelled rules. *)
Lemma partition_labels_sample :
  List.length (splitCssIntoSubsets sampleParse labelledCss)
  = List.length (fontFaceNodes (sampleParse labelledCss))
  /\ Forall2 (fun node group =>
                css group = generated node /\
                forall c, nearestPreceding (reported (sampleParse labelledCss)) node c ->
                          subset group = Some (trim (value c)))
             (fontFaceNodes (sampleParse labelledCss))
             (splitCssIntoSubsets sampleParse labelledCss).
Proof.
  apply (partition_labels_by_nearest_comment sampleParse labelledCss).
  - discriminate.
  - reflexivity.
  - intros node [<-|[<-|[]]].
    + exists {| value := " latin "; endLine := 1 |}. split.
      * split; [left; reflexivity|]. split; [reflexivity|].
        intros c' [<-|[<-|[]]]; simpl; lia.
      * intros c' [[<-|[<-|[]]] [Hlt _]]; simpl in Hlt; [reflexivity | lia].
    + exists {| value := " cyrillic "; endLine := 3 |}. split.
      * split; [right; left; reflexivity|]. split; [reflexivity|].
        intros c' [<-|[<-|[]]]; simpl; lia.
      * intros c' [[<-|[<-|[]]] [_ Hmax]]; [|reflexivity].
        specialize (Hmax {| value := " cyrillic "; endLine := 3 |}
                         (or_intror (or_introl eq_refl)) eq_refl).
        simpl in Hmax. lia.
Defined.

(** C5 on the document whose first rule precedes its only comment. *)
Lemma orphan_rules_dropped_sample :
  Forall2 (fun node group =>
             css group = generated node /\
             exists c, In c (reported (sampleParse orphanCss)) /\
                       endLine c < startLine node /\
                       subset group = Some (trim (value c)))
          (filter (hasPrecedingComment (reported (sampleParse orphanCss)))
                  (fontFaceNodes (sampleParse orphanCss)))
          (splitCssIntoSubsets sampleParse orphanCss)
  /\ forall before node after input',
       fontFaceNodes (sampleParse orphanCss) = before ++ node :: after ->
       hasPrecedingComment (reported (sampleParse orphanCss)) node = false ->
       reported (sampleParse input') = reported (sampleParse orphanCss) ->
       fontFaceNodes (sampleParse input') = before ++ after ->
       splitCssIntoSubsets sampleParse orphanCss = splitCssIntoSubsets sampleParse input'.
Proof.
  apply (orphan_rules_dropped sampleParse orphanCss). discriminate.
Defined.

(** C6 on the document without comments. *)
Lemma splitCssIntoSubsets_without_comments_sample :
  splitCssIntoSubsets sampleParse plainCss = [ {| subset := None; css := plainCss |} ].
Proof.
  apply (splitCssIntoSubsets_without_comments sampleParse plainCss). reflexivity.
Defined.



(** C9 on a family the sample index does not list. *)
Lemma resolveFont_unknown_family_sample :
  sampleResolveFont "Y" {| weights := ["400"]; styles := [normal]; subsets := [] |}
                    sampleWorld
  = (Returned None, sampleWorld).
Proof.
  apply (resolveFont_unknown_family compareCodeUnits sampleParse string unit
           sampleExtract samplePrepareWeights sampleUpstream (fun _ => "0")
           (fun _ init => init) sampleProvider sampleFonts).
  intros [H|[]]. discriminate H.
Defined.

(** C10 on the styles oblique, normal, italic. *)
Lemma oblique_is_redundant_sample :
  styleMap italic = "1" /\ styleMap oblique = "1" /\ styleMap normal = "0"
  /\ styleCodes [oblique; normal; italic] = styleCodes (withoutOblique [oblique; normal; italic])
  /\ (forall wts overrides,
        resolveAxes compareCodeUnits wts (styleCodes [oblique; normal; italic]) overrides
        = resolveAxes compareCodeUnits wts
            (styleCodes (withoutOblique [oblique; normal; italic])) overrides)
  /\ sampleDetails "X"
       {| weights := ["400"]; styles := [oblique; normal; italic]; subsets := [] |}
       sampleWorld
     = sampleDetails "X"
         {| weights := ["400"]; styles := withoutOblique [oblique; normal; italic];
            subsets := [] |}
         sampleWorld.
Proof.
  apply (oblique_is_redundant_with_italic compareCodeUnits sampleParse string unit
           sampleExtract samplePrepareWeights sampleUpstream sampleProvider sampleFonts).
  - right. right. left. reflexivity.
  - left. reflexivity.
Defined.

(** A join of two or more tokens holds a comma. *)
Lemma join_has_comma (a : string) (rest : list string) :
  rest <> [] -> hasComma (join "," (a :: rest)) = true.
Proof.
  intros Hne. destruct rest as [|b r]; [congruence|].
  unfold join. change (String.concat "," (a :: b :: r))
    with (a ++ "," ++ String.concat "," (b :: r))%string.
  generalize (String.concat "," (b :: r)). intros s.
  induction a as [|c a IH]; [reflexivity|].
  simpl in *. rewrite IH. apply orb_true_r.
Qed.

(** C7 on a family whose variable-axis map has an empty list: with weights
    400 and 700, the style code 0 and [opsz: []], three axes are resolved,
    but the variants are the two weight tokens alone; neither is a comma-join
    of three tokens. *)
Theorem resolveAxes_empty_axis_list :
  resolveAxes compareCodeUnits sampleWeights ["0"] [("opsz", [])]
  = Returned (["ital"; "opsz"; "wght"], ["400"; "700"])
  /\ forall t tokens,
       In t ["400"; "700"] -> List.length tokens = 3%nat -> t <> join "," tokens.
Proof.
  split; [reflexivity|].
  intros t tokens Ht Hlen Heq.
  destruct tokens as [|a [|b r]]; try discriminate Hlen.
  assert (Hc : hasComma t = true).
  { rewrite Heq. apply join_has_comma. discriminate. }
  destruct Ht as [<-|[<-|[]]]; discriminate Hc.
Qed.

(** ** The further properties on the sample documents *)

(** X1 on the document with one leading comment. *)
Lemma rules_after_all_comments_sample :
  splitCssIntoSubsets headedParse headedCss
  = map (fun node => {| subset := Some (trim " latin "); css := generated node |})
        (fontFaceNodes (headedParse headedCss)).
Proof.
  apply (rules_after_all_comments headedParse headedCss {| value := " latin "; endLine := 1 |}).
  - reflexivity.
  - intros c node [<-|[]] [<-|[<-|[]]]; reflexivity.
Defined.

(** X2 on the same document with and without its trailing comment. *)
Lemma trailing_comments_ignored_sample :
  splitCssIntoSubsets headedParse trailedCss = splitCssIntoSubsets headedParse headedCss.
Proof.
  apply (trailing_comments_ignored headedParse headedCss trailedCss
           [ {| value := " end "; endLine := 4 |} ]).
  - reflexivity.
  - reflexivity.
  - intros c node [<-|[]] [<-|[<-|[]]]; simpl; lia.
  - discriminate.
Defined.

(** X3 on the first fragment of the document with two labelled rules. *)
Lemma labels_are_trimmed_sample : trim "latin" = "latin".
Proof.
  apply (labels_are_trimmed sampleParse labelledCss
           {| subset := Some "latin";
              css := "@font-face{font-family:X;src:url(a.woff2)}" |}).
  - left. reflexivity.
  - reflexivity.
Defined.

(** X6 on an axis map whose only key is "wght". *)
Lemma canonical_axes_keep_their_values_sample :
  resolveAxes compareCodeUnits sampleWeights ["0"] ([] ++ [("wght", [Literal "1"])])
  = resolveAxes compareCodeUnits sampleWeights ["0"] ([] ++ [("wght", [])])
  /\ (2 <= count_occ string_dec
             (activeAxes compareCodeUnits ([] ++ [("wght", [Literal "1"])])) "wght")%nat.
Proof.
  apply (canonical_axes_keep_their_values compareCodeUnits sampleWeights ["0"] "wght").
  left. reflexivity.
Defined.

(** X7 on weights 400 and 700, both style codes and one optical-size range. *)
Lemma resolveAxes_complete_sample :
  exists vals variants,
    resolveAxes compareCodeUnits sampleWeights ["0"; "1"] [("opsz", [Range "8" "12"])]
    = Returned (activeAxes compareCodeUnits [("opsz", [Range "8" "12"])], variants)
    /\ valueLists sampleWeights ["0"; "1"] [("opsz", [Range "8" "12"])]
                  (activeAxes compareCodeUnits [("opsz", [Range "8" "12"])]) vals
    /\ forall tokens,
         Forall2 (fun token values => In token values) tokens vals ->
         In (join "," tokens) variants.
Proof.
  apply (resolveAxes_complete compareCodeUnits).
  - discriminate.
  - discriminate.
  - intros axis vs [H|[]]. inversion H. split; [reflexivity | discriminate].
Defined.

(** X8 on weights given in descending order. *)
Lemma resolveAxes_ascending_sample :
  exists variants,
    resolveAxes compareCodeUnits
                [ {| weight := "700"; variable := false |};
                  {| weight := "400"; variable := false |} ]
                ["0"; "1"] []
    = Returned (activeAxes compareCodeUnits [], variants)
    /\ ascending variants.
Proof.
  apply (resolveAxes_ascending compareCodeUnits).
  - discriminate.
  - discriminate.
  - intros axis vs [].
Defined.

(** X16 on an axis map with the key "constructor". *)
Lemma inherited_axis_name_throws_sample :
  resolveAxes compareCodeUnits sampleWeights ["0"] [("constructor", [Literal "1"])]
  = Thrown.
Proof.
  apply (inherited_axis_name_throws compareCodeUnits sampleWeights ["0"]
           [("constructor", [Literal "1"])] "constructor" (Some 1)).
  - left. reflexivity.
  - reflexivity.
  - discriminate.
Defined.

(** X10 on two lists that both request the codes 0 and 1. *)
Lemma styleCodes_canonical_sample :
  styleCodes [italic; normal] = styleCodes [normal; oblique; normal].
Proof.
  apply styleCodes_canonical. intros c. simpl. tauto.
Defined.

(** X12 on the document without comments. *)
Lemma uncommented_css_is_kept_whole_sample :
  flavorFaces string sampleExtract 0
              {| weights := []; styles := []; subsets := ["latin"] |}
              (splitCssIntoSubsets sampleParse plainCss)
  = map (setPriority string 0) (sampleExtract plainCss).
Proof.
  apply (uncommented_css_is_kept_whole sampleParse string sampleExtract). reflexivity.
Defined.

(** X14 on the sample family, asking for latin and for latin and cyrillic. *)
Lemma subsets_only_filter_sample :
  exists w',
    (sampleDetails "X" {| weights := ["400"]; styles := [normal]; subsets := ["latin"] |}
                   sampleWorld
     = (Thrown, w')
     /\ sampleDetails "X"
          {| weights := ["400"]; styles := [normal]; subsets := ["latin"; "cyrillic"] |}
          sampleWorld
        = (Thrown, w'))
    \/ exists recs recs',
         sampleDetails "X" {| weights := ["400"]; styles := [normal]; subsets := ["latin"] |}
                       sampleWorld
         = (Returned recs, w')
         /\ sampleDetails "X"
              {| weights := ["400"]; styles := [normal]; subsets := ["latin"; "cyrillic"] |}
              sampleWorld
            = (Returned recs', w')
         /\ incl recs recs'.
Proof.
  apply (subsets_only_filter compareCodeUnits sampleParse string unit sampleExtract
           samplePrepareWeights sampleUpstream sampleProvider sampleFonts).
  intros x [<-|[]]. left. reflexivity.
Defined.

(** X13 on the sample family, which is listed. *)
Lemma getFontDetails_requests_sample :
  exists out w' sent,
    sampleDetails "X" {| weights := ["400"]; styles := [normal]; subsets := ["latin"] |}
                  sampleWorld
    = (out, w')
    /\ store w' = store sampleWorld
    /\ requests w' = requests sampleWorld ++ sent
    /\ List.length sent = 2%nat.
Proof.
  destruct (proj2 (getFontDetails_requests compareCodeUnits sampleParse string unit
                     sampleExtract samplePrepareWeights sampleUpstream sampleProvider
                     sampleFonts "X"
                     {| weights := ["400"]; styles := [normal]; subsets := ["latin"] |}
                     sampleWorld) (or_introl eq_refl))
    as [out [w' [sent [Hr [Hs [Hq _]]]]]].
  exists out, w', sent. repeat split; auto.
  vm_compute in Hr. injection Hr as _ <-. simpl in Hq.
  destruct sent as [|a [|b [|c r]]]; try discriminate Hq. reflexivity.
Defined.

(** X15 on the sample family, with a storage that runs the initialiser. *)
Lemma resolveFont_listed_sample :
  sampleResolveFont "X" {| weights := ["400"]; styles := []; subsets := [] |} sampleWorld
  = (Returned (Some []), sampleWorld).
Proof.
  rewrite (proj2 (resolveFont_absent_iff_unknown compareCodeUnits sampleParse string unit
                    sampleExtract samplePrepareWeights sampleUpstream (fun _ => "0")
                    (fun _ init => init) sampleProvider sampleFonts "X"
                    {| weights := ["400"]; styles := []; subsets := [] |} sampleWorld)
                 (or_introl eq_refl)).
  reflexivity.
Defined.
